(** * todomaster-2010: real-time synchronisation core

    A shallow embedding of
    - the client reconciler ([handleWebSocketEvent], the websocket hook),
    - the optimistic list mutations ([useCreateList], [useUpdateList],
      [useDeleteList] of [frontend/src/hooks/useLists.ts]),
    - the credential refresh interceptor of the REST client, and
    - the server-side connection registry ([Hub.Run]),
    together with the properties the specification states about them. *)

From stdpp Require Import gmap strings list fin_maps.
From Stdlib Require Import ZArith Lia.

Local Open Scope Z_scope.

(** ** Entities ([types]): the REST shapes mirrored by the cache.

    JavaScript numbers that hold ids, positions and foreign keys are integers
    here; an optional field ([listId?], [tags?], [subtasks?]) is an [option]. *)

Record Subtask := mkSubtask {
  subtask_id : Z;
  subtask_taskId : Z;
  subtask_text : string;
  subtask_completed : bool;
  subtask_sortOrder : Z;
  subtask_createdAt : string
}.

Record List := mkList {
  list_id : Z;
  list_userId : Z;
  list_title : string;
  list_createdAt : string;
  list_updatedAt : string
}.

Record Task := mkTask {
  task_id : Z;
  task_userId : Z;
  task_listId : option Z;
  task_text : string;
  task_completed : bool;
  task_important : bool;
  task_isExpanded : bool;
  task_sortOrder : Z;
  task_tags : option (list string);
  task_subtasks : option (list Subtask);
  task_createdAt : string;
  task_updatedAt : string
}.

(** [{ ...task, sortOrder: index }] *)
Definition with_sortOrder (index : Z) (task : Task) : Task :=
  mkTask (task_id task) (task_userId task) (task_listId task) (task_text task)
         (task_completed task) (task_important task) (task_isExpanded task)
         index (task_tags task) (task_subtasks task)
         (task_createdAt task) (task_updatedAt task).

(** [{ ...task, subtasks: s }] *)
Definition with_subtasks (s : option (list Subtask)) (task : Task) : Task :=
  mkTask (task_id task) (task_userId task) (task_listId task) (task_text task)
         (task_completed task) (task_important task) (task_isExpanded task)
         (task_sortOrder task) (task_tags task) s
         (task_createdAt task) (task_updatedAt task).

(** [{ ...list, title, updatedAt }] *)
Definition with_title (title updatedAt : string) (l : List) : List :=
  mkList (list_id l) (list_userId l) title (list_createdAt l) updatedAt.

(** ** The query cache

    [queryClient.getQueryData(['tasks'])] and [(['lists'])]: a collection is
    either absent ([undefined], [None]) or an array. *)

Record QueryCache := mkCache {
  tasks : option (list Task);
  lists : option (list List)
}.

Definition setTasks (v : list Task) (c : QueryCache) : QueryCache :=
  mkCache (Some v) (lists c).

Definition setLists (v : list List) (c : QueryCache) : QueryCache :=
  mkCache (tasks c) (Some v).

(** ** Event envelopes

    [{type, payload}]: the handler switches on the type string and casts the
    payload; an unrecognised type falls to [default]. *)

Inductive WebSocketEvent :=
| task_created (newTask : Task)
| task_updated (updatedTask : Task)
| task_deleted (id : Z)
| tasks_reordered (taskIds : list Z)
| subtask_created (newSubtask : Subtask)
| subtask_updated (updatedSubtask : Subtask)
| subtask_deleted (id : Z)
| list_created (newList : List)
| list_updated (updatedList : List)
| list_deleted (id : Z)
| unknown_event (type : string).

(** ** The reconciler: [handleWebSocketEvent] *)

Module Reconciler.

(** [new Map(tasks.map(t => [t.id, t]))]: a later entry for a key replaces an
    earlier one. *)
Definition taskMap (ts : list Task) : gmap Z Task :=
  foldl (λ m t, <[task_id t := t]> m) ∅ ts.

(** [taskIds.map((id, index) => ...).filter(t => t !== undefined)] *)
Definition reorderedTasks (ts : list Task) (taskIds : list Z) : list Task :=
  omap (λ x : option Task, x)
       (imap (λ index id, with_sortOrder (Z.of_nat index) <$> taskMap ts !! id)
             taskIds).

(** [tasks.filter(t => !taskIds.includes(t.id))] *)
Definition missingTasks (ts : list Task) (taskIds : list Z) : list Task :=
  filter (λ t, task_id t ∉ taskIds) ts.

Definition reorder (ts : list Task) (taskIds : list Z) : list Task :=
  reorderedTasks ts taskIds ++ missingTasks ts taskIds.

(** [array.some(x => x.id === id)] *)
Definition some_task_id (id : Z) (ts : list Task) : bool :=
  existsb (λ t, bool_decide (task_id t = id)) ts.

Definition some_list_id (id : Z) (ls : list List) : bool :=
  existsb (λ l, bool_decide (list_id l = id)) ls.

Definition some_subtask_id (id : Z) (ss : list Subtask) : bool :=
  existsb (λ s, bool_decide (subtask_id s = id)) ss.

Definition add_subtask (newSubtask : Subtask) (task : Task) : Task :=
  if bool_decide (task_id task = subtask_taskId newSubtask) then
    (* [!task.subtasks?.some(...)]: true when [subtasks] is undefined *)
    if negb (from_option (some_subtask_id (subtask_id newSubtask)) false
                         (task_subtasks task))
    then with_subtasks (Some (default [] (task_subtasks task) ++ [newSubtask])) task
    else task
  else task.

Definition handleWebSocketEvent (c : QueryCache) (event : WebSocketEvent)
  : QueryCache :=
  match tasks c with
  | None => c                                      (* [if (!tasks) return] *)
  | Some ts =>
    match event with
    | task_created newTask =>
        if negb (some_task_id (task_id newTask) ts)
        then setTasks (ts ++ [newTask]) c else c
    | task_updated updatedTask =>
        setTasks ((λ task, if bool_decide (task_id task = task_id updatedTask)
                           then updatedTask else task) <$> ts) c
    | task_deleted id =>
        setTasks (filter (λ task, task_id task ≠ id) ts) c
    | tasks_reordered taskIds =>
        setTasks (reorder ts taskIds) c
    | subtask_created newSubtask =>
        setTasks (add_subtask newSubtask <$> ts) c
    | subtask_updated updatedSubtask =>
        setTasks ((λ task, with_subtasks
                     (fmap (M:=list)
                        (λ s, if bool_decide (subtask_id s = subtask_id updatedSubtask)
                              then updatedSubtask else s) <$> task_subtasks task)
                     task) <$> ts) c
    | subtask_deleted id =>
        setTasks ((λ task, with_subtasks
                     (filter (λ s, subtask_id s ≠ id) <$> task_subtasks task)
                     task) <$> ts) c
    | list_created newList =>
        match lists c with
        | Some ls => if negb (some_list_id (list_id newList) ls)
                     then setLists (ls ++ [newList]) c else c
        | None => c
        end
    | list_updated updatedList =>
        match lists c with
        | Some ls =>
            setLists ((λ l, if bool_decide (list_id l = list_id updatedList)
                            then updatedList else l) <$> ls) c
        | None => c
        end
    | list_deleted id =>
        match lists c with
        | Some ls => setLists (filter (λ l, list_id l ≠ id) ls) c
        | None => c
        end
    | unknown_event _ => c
    end
  end.

End Reconciler.

(** ** Optimistic list mutations ([useLists.ts])

    [onMutate] returns the new cache and the context handed to the later
    callbacks.  The clock readings ([Date.now()], [new Date().toISOString()])
    are arguments. *)

Module UseLists.

Record CreateContext := mkCreateContext {
  cc_previousLists : option (list List);
  cc_tempId : Z
}.

Definition optimisticList (now : Z) (nowIso title : string) : List :=
  mkList now 0 title nowIso nowIso.

Definition create_onMutate (now : Z) (nowIso title : string) (c : QueryCache)
  : QueryCache * CreateContext :=
  let previousLists := lists c in
  let tempId := now in
  let c' := match previousLists with
            | Some pl => setLists (pl ++ [optimisticList tempId nowIso title]) c
            | None => setLists [optimisticList tempId nowIso title] c
            end in
  (c', mkCreateContext previousLists tempId).

(** [if (currentLists && context?.tempId)]: a number is truthy unless it is
    zero. *)
Definition create_onSuccess (newList : List) (ctx : CreateContext)
  (c : QueryCache) : QueryCache :=
  match lists c with
  | Some currentLists =>
      if bool_decide (cc_tempId ctx ≠ 0) then
        setLists (filter (λ l, list_id l ≠ cc_tempId ctx ∧ list_id l ≠ list_id newList)
                         currentLists ++ [newList]) c
      else c
  | None => c
  end.

(** [if (context?.previousLists) setQueryData(['lists'], previousLists)]:
    every array, the empty one too, is truthy; [undefined] is not. *)
Definition create_onError (ctx : CreateContext) (c : QueryCache) : QueryCache :=
  match cc_previousLists ctx with
  | Some pl => setLists pl c
  | None => c
  end.

Definition update_onMutate (nowIso : string) (id : Z) (title : string)
  (c : QueryCache) : QueryCache * option (list List) :=
  let previousLists := lists c in
  let c' := match previousLists with
            | Some pl =>
                setLists ((λ l, if bool_decide (list_id l = id)
                                then with_title title nowIso l else l) <$> pl) c
            | None => c
            end in
  (c', previousLists).

Definition update_onError (previousLists : option (list List)) (c : QueryCache)
  : QueryCache :=
  match previousLists with
  | Some pl => setLists pl c
  | None => c
  end.

Record DeleteContext := mkDeleteContext {
  dc_previousLists : option (list List);
  dc_previousTasks : option (list Task)
}.

Definition remove_list (id : Z) (c : QueryCache) : QueryCache :=
  let c1 := match lists c with
            | Some ls => setLists (filter (λ l, list_id l ≠ id) ls) c
            | None => c
            end in
  match tasks c1 with
  | Some ts => setTasks (filter (λ task, task_listId task ≠ Some id) ts) c1
  | None => c1
  end.

Definition delete_onMutate (id : Z) (c : QueryCache) : QueryCache * DeleteContext :=
  (remove_list id c, mkDeleteContext (lists c) (tasks c)).

Definition delete_onSuccess (id : Z) (c : QueryCache) : QueryCache :=
  remove_list id c.

Definition delete_onError (ctx : DeleteContext) (c : QueryCache) : QueryCache :=
  let c1 := match dc_previousLists ctx with
            | Some pl => setLists pl c
            | None => c
            end in
  match dc_previousTasks ctx with
  | Some pt => setTasks pt c1
  | None => c1
  end.

End UseLists.

(** ** The REST client's response interceptor (credential refresh)

    JavaScript runs the interceptor on one thread: each invocation runs
    without interruption up to [await axios.post(refresh)], is suspended
    there, and is resumed when the refresh call settles.  The module state
    ([isRefreshing], [failedQueue]), the browser's [localStorage], the
    suspended invocations and the observable effects are threaded through
    explicitly. *)

Module ApiClient.

Local Open Scope string_scope.

(** [str.includes(needle)] *)
Fixpoint includes (needle hay : string) : bool :=
  if String.prefix needle hay then true
  else match hay with
       | EmptyString => false
       | String _ rest => includes needle rest
       end.

(** The request configuration: the fields the interceptors read or write.
    [call] identifies the caller's promise. *)
Record Config := mkConfig {
  call : nat;
  url : option string;
  retry_ : bool;                    (* [_retry] *)
  authorization : option string     (* [headers.Authorization] *)
}.

Record AxiosError := mkError {
  status : option Z;                (* [error.response?.status] *)
  config : option Config            (* [error.config] *)
}.

Inductive Effect :=
| RefreshCall (refreshToken : string)   (* [axios.post('/api/auth/refresh')] *)
| Request (cfg : Config)                (* [api(config)], as sent *)
| Rejected (c : nat)                    (* the promise of call [c] rejects *)
| Reload.                               (* [window.location.reload()] *)

Record State := mkState {
  isRefreshing : bool;
  failedQueue : list Config;
  localStorage : gmap string string;
  onLoginPage : bool;       (* [window.location.pathname.includes('/login')] *)
  awaiting : list Config;   (* invocations suspended at the refresh call *)
  effects : list Effect
}.

Definition emit (e : Effect) (s : State) : State :=
  mkState (isRefreshing s) (failedQueue s) (localStorage s) (onLoginPage s)
          (awaiting s) (effects s ++ [e]).

Definition setStorage (ls : gmap string string) (s : State) : State :=
  mkState (isRefreshing s) (failedQueue s) ls (onLoginPage s)
          (awaiting s) (effects s).

Definition setRefreshing (b : bool) (s : State) : State :=
  mkState b (failedQueue s) (localStorage s) (onLoginPage s)
          (awaiting s) (effects s).

Definition setQueue (q : list Config) (s : State) : State :=
  mkState (isRefreshing s) q (localStorage s) (onLoginPage s)
          (awaiting s) (effects s).

Definition setAwaiting (a : list Config) (s : State) : State :=
  mkState (isRefreshing s) (failedQueue s) (localStorage s) (onLoginPage s)
          a (effects s).

(** [localStorage.getItem(k)] used as a condition: [null] and the empty
    string are falsy. *)
Definition getTruthy (k : string) (s : State) : option string :=
  match localStorage s !! k with
  | Some v => if bool_decide (v = "") then None else Some v
  | None => None
  end.

Definition bearer (token : string) : string := "Bearer " +:+ token.

Definition withAuthorization (a : string) (cfg : Config) : Config :=
  mkConfig (call cfg) (url cfg) (retry_ cfg) (Some a).

Definition markRetry (cfg : Config) : Config :=
  mkConfig (call cfg) (url cfg) true (authorization cfg).

(** The request interceptor: attach the stored token, if any. *)
Definition requestInterceptor (s : State) (cfg : Config) : Config :=
  match getTruthy "token" s with
  | Some token => withAuthorization (bearer token) cfg
  | None => cfg
  end.

(** [api(config)]: the request goes out as the request interceptor leaves
    it.  [localStorage] is not written between the call and the interceptor's
    run in any of the paths below. *)
Definition api (cfg : Config) (s : State) : State :=
  emit (Request (requestInterceptor s cfg)) s.

Definition handleAuthFailure (s : State) : State :=
  let hadToken := getTruthy "token" s in
  let s1 := setStorage (delete "REACT_QUERY_OFFLINE_CACHE"
                          (delete "refreshToken"
                             (delete "token" (localStorage s)))) s in
  if bool_decide (is_Some hadToken) && negb (onLoginPage s1)
  then emit Reload s1 else s1.

(** [processQueue(error)] *)
Definition processQueue (error : bool) (s : State) : State :=
  setQueue []
    (foldl (λ st cfg, if error then emit (Rejected (call cfg)) st else api cfg st)
           s (failedQueue s)).

(** The rejected-response handler up to the [await]. *)
Definition responseError (error : AxiosError) (s : State) : State :=
  match config error with
  | None => s                                   (* rejects; no call to name *)
  | Some originalRequest =>
    if bool_decide (status error ≠ Some 401) then
      emit (Rejected (call originalRequest)) s
    else if retry_ originalRequest
            || from_option (includes "/api/auth/refresh") false (url originalRequest)
    then emit (Rejected (call originalRequest)) (handleAuthFailure s)
    else match getTruthy "refreshToken" s with
         | None => emit (Rejected (call originalRequest)) (handleAuthFailure s)
         | Some refreshToken =>
           if isRefreshing s then
             setQueue (failedQueue s ++ [originalRequest]) s
           else
             setAwaiting (awaiting s ++ [markRetry originalRequest])
               (emit (RefreshCall refreshToken) (setRefreshing true s))
         end
  end.

(** The [try] block after the refresh call resolved, then [finally]. *)
Definition refreshResolved (accessToken newRefreshToken : string) (s : State)
  : State :=
  match awaiting s with
  | [] => s
  | originalRequest :: rest =>
    let s1 := setAwaiting rest s in
    let s2 := setStorage (<["refreshToken" := newRefreshToken]>
                            (<["token" := accessToken]> (localStorage s1))) s1 in
    let originalRequest' := withAuthorization (bearer accessToken) originalRequest in
    let s3 := processQueue false s2 in
    let s4 := api originalRequest' s3 in
    setRefreshing false s4
  end.

(** The [catch] block after the refresh call rejected, then [finally]. *)
Definition refreshRejected (s : State) : State :=
  match awaiting s with
  | [] => s
  | originalRequest :: rest =>
    let s1 := setAwaiting rest s in
    let s2 := processQueue true s1 in
    let s3 := handleAuthFailure s2 in
    let s4 := emit (Rejected (call originalRequest)) s3 in
    setRefreshing false s4
  end.

Inductive Event :=
| ResponseError (error : AxiosError)
| RefreshResolved (accessToken newRefreshToken : string)
| RefreshRejected.

Definition step (s : State) (e : Event) : State :=
  match e with
  | ResponseError error => responseError error s
  | RefreshResolved a r => refreshResolved a r s
  | RefreshRejected => refreshRejected s
  end.

Definition run (s : State) (es : list Event) : State := foldl step s es.

(** The module as loaded: not refreshing, nothing queued. *)
Definition init (ls : gmap string string) (login : bool) : State :=
  mkState false [] ls login [] [].

Definition unauthorized (cfg : Config) : Event :=
  ResponseError (mkError (Some 401) (Some cfg)).

(** A request as the application issues it: not yet retried, and not the
    refresh endpoint. *)
Definition fresh (cfg : Config) : Prop :=
  retry_ cfg = false ∧
  from_option (includes "/api/auth/refresh") false (url cfg) = false.

Definition isRefreshCall (e : Effect) : bool :=
  match e with RefreshCall _ => true | _ => false end.

Definition countRefresh (es : list Effect) : nat :=
  length (filter (λ e, isRefreshCall e = true) es).

Definition refreshCalls (s : State) : nat := countRefresh (effects s).

Definition requestsOf (c : nat) (s : State) : list Config :=
  omap (λ e, match e with
             | Request cfg => if bool_decide (call cfg = c) then Some cfg else None
             | _ => None
             end) (effects s).

(** Not refreshing, nothing queued, no invocation suspended: the state
    between refreshes. *)
Definition idle (s : State) : Prop :=
  isRefreshing s = false ∧ awaiting s = [] ∧ failedQueue s = [].

(** The flag is raised exactly while one invocation is suspended at the
    refresh call. *)
Definition single_flight (s : State) : Prop :=
  (isRefreshing s = false ∧ awaiting s = []) ∨
  (isRefreshing s = true ∧ ∃ cfg, awaiting s = [cfg]).

End ApiClient.

(** ** The connection registry ([Hub], Go)

    A [*Client] is an address into a heap of client records; the registry
    [clients] is [map[int64]map[*Client]bool].  A buffered channel is its
    queued messages, its capacity and whether it has been closed.  Sending on
    a closed channel, closing one twice and dereferencing an unallocated
    address panic: the operations return [None] there. *)

Module Hub.

Record Chan := mkChan {
  buf : list string;
  cap : nat;
  closed : bool
}.

Record Client := mkClient {
  userID : Z;
  send : Chan
}.

Record World := mkWorld {
  clients : gmap Z (gmap positive bool);
  heap : gmap positive Client
}.

(** [NewHub()] *)
Definition NewHub : World := mkWorld ∅ ∅.

Inductive SendResult :=
| Sent (ch : Chan)
| Full
| SendPanic.

(** [select { case ch <- m: default: }] *)
Definition trySend (m : string) (ch : Chan) : SendResult :=
  if closed ch then SendPanic
  else if (length (buf ch) <? cap ch)%nat
       then Sent (mkChan (buf ch ++ [m]) (cap ch) false)
       else Full.

(** [close(ch)] *)
Definition close (ch : Chan) : option Chan :=
  if closed ch then None else Some (mkChan (buf ch) (cap ch) true).

Definition setSend (ch : Chan) (cl : Client) : Client := mkClient (userID cl) ch.

(** [handleWebSocket], after the upgrade: a client with a fresh queue of 256
    slots is allocated at an unused address. *)
Definition newClient (uid : Z) (p : positive) (w : World) : option World :=
  match heap w !! p with
  | Some _ => None
  | None => Some (mkWorld (clients w) (<[p := mkClient uid (mkChan [] 256 false)]> (heap w)))
  end.

(** [case client := <-h.register] *)
Definition register (p : positive) (w : World) : option World :=
  cl ← heap w !! p;
  let uid := userID cl in
  let cs := default ∅ (clients w !! uid) in
  Some (mkWorld (<[uid := <[p := true]> cs]> (clients w)) (heap w)).

(** [case client := <-h.unregister] *)
Definition unregister (p : positive) (w : World) : option World :=
  cl ← heap w !! p;
  let uid := userID cl in
  match clients w !! uid with
  | Some cs =>
    match cs !! p with
    | Some _ =>
      let cs' := delete p cs in
      ch ← close (send cl);
      let heap' := <[p := setSend ch cl]> (heap w) in
      if bool_decide (size cs' = 0%nat)
      then Some (mkWorld (delete uid (clients w)) heap')
      else Some (mkWorld (<[uid := cs']> (clients w)) heap')
    | None => Some w
    end
  | None => Some w
  end.

(** One iteration of the [for client := range clients] loop. *)
Definition broadcastTo (uid : Z) (message : string) (p : positive) (w : World)
  : option World :=
  cl ← heap w !! p;
  match trySend message (send cl) with
  | Sent ch => Some (mkWorld (clients w) (<[p := setSend ch cl]> (heap w)))
  | Full =>
    (* [delete(h.clients[msg.userID], client); close(client.send)] *)
    ch ← close (send cl);
    Some (mkWorld (alter (delete p) uid (clients w)) (<[p := setSend ch cl]> (heap w)))
  | SendPanic => None
  end.

Definition broadcastLoop (uid : Z) (message : string) (ps : list positive)
  (w : World) : option World :=
  foldl (λ ow p, w' ← ow; broadcastTo uid message p w') (Some w) ps.

(** [case msg := <-h.broadcast]: the loop visits the keys of the user's set;
    Go leaves the order open, here it is the order of [map_to_list]. *)
Definition broadcast (uid : Z) (message : string) (w : World) : option World :=
  let cs := default ∅ (clients w !! uid) in
  broadcastLoop uid message (map_to_list cs).*1 w.

(** [writePump]: one message is received, then the [n = len(c.send)] queued
    behind it. *)
Definition receive (p : positive) (w : World) : option World :=
  cl ← heap w !! p;
  Some (mkWorld (clients w)
          (<[p := setSend (mkChan [] (cap (send cl)) (closed (send cl))) cl]> (heap w))).

Inductive Op :=
| Connect (uid : Z) (p : positive)      (* [handleWebSocket]: allocate, register *)
| Unregister (p : positive)             (* [readPump] on its way out *)
| Broadcast (uid : Z) (message : string)
| Receive (p : positive).

Definition apply (w : World) (op : Op) : option World :=
  match op with
  | Connect uid p => w' ← newClient uid p w; register p w'
  | Unregister p => unregister p w
  | Broadcast uid message => broadcast uid message w
  | Receive p => receive p w
  end.

Definition runOps (w : World) (ops : list Op) : option World :=
  foldl (λ ow op, w' ← ow; apply w' op) (Some w) ops.

Definition registered (w : World) (uid : Z) (p : positive) : Prop :=
  ∃ cs, clients w !! uid = Some cs ∧ is_Some (cs !! p).

Definition isFull (ch : Chan) : bool := negb (length (buf ch) <? cap ch)%nat.

(** The entry of address [p] in the set of user [uid], if any. *)
Definition member (w : World) (uid : Z) (p : positive) : option bool :=
  clients w !! uid ≫= λ cs, cs !! p.

Definition fullAt (w : World) (p : positive) : bool :=
  from_option (λ cl, isFull (send cl)) false (heap w !! p).

(** What one publish does to a client with an open queue: the message is
    queued, or, the queue being full, the queue is closed. *)
Definition deliver (message : string) (cl : Client) : Client :=
  if isFull (send cl)
  then setSend (mkChan (buf (send cl)) (cap (send cl)) true) cl
  else setSend (mkChan (buf (send cl) ++ [message]) (cap (send cl)) false) cl.

(** Every registered address holds a client of that user whose queue is
    open. *)
Definition wf (w : World) : Prop :=
  ∀ uid p, registered w uid p →
    ∃ cl, heap w !! p = Some cl ∧ userID cl = uid ∧ closed (send cl) = false.

(** No user id maps to an empty connection set. *)
Definition noEmptySet (w : World) : Prop :=
  ∀ uid cs, clients w !! uid = Some cs → cs ≠ ∅.

End Hub.

(** ** An optimistic create racing the broadcast of the same creation

    After [onMutate], the REST success ([onSuccess] with the created list)
    and the hub's [list_created] envelope for the same list reach the cache
    in one order or the other. *)

Module CreateRace.

Definition successThenBroadcast (now : Z) (nowIso title : string)
  (newList payload : List) (c : QueryCache) : QueryCache :=
  let '(c1, ctx) := UseLists.create_onMutate now nowIso title c in
  Reconciler.handleWebSocketEvent
    (UseLists.create_onSuccess newList ctx c1) (list_created payload).

Definition broadcastThenSuccess (now : Z) (nowIso title : string)
  (newList payload : List) (c : QueryCache) : QueryCache :=
  let '(c1, ctx) := UseLists.create_onMutate now nowIso title c in
  UseLists.create_onSuccess newList ctx
    (Reconciler.handleWebSocketEvent c1 (list_created payload)).

(** How many entries of a lists collection carry the id; an absent
    collection has none. *)
Definition countId (id : Z) (ls : list List) : nat :=
  length (filter (λ l, list_id l = id) ls).

Definition countIn (id : Z) (c : QueryCache) : nat :=
  from_option (countId id) 0%nat (lists c).

(** The ids the server can assign: the schema declares
    [id INTEGER PRIMARY KEY AUTOINCREMENT], read into an [int64]; the rows
    are numbered from 1. *)
Definition serverAssignable (s : Z) : Prop := 1 ≤ s ≤ 2 ^ 63 - 1.

Definition listIds (c : QueryCache) : list Z :=
  list_id <$> default [] (lists c).

End CreateRace.

(** ** Sample data used by the worked examples *)

Module Samples.

Local Open Scope string_scope.

Definition task (id : Z) (listId : option Z) (text : string) (sortOrder : Z)
  : Task :=
  mkTask id 1 listId text false false false sortOrder (Some []) (Some [])
         "2024-01-01T00:00:00Z" "2024-01-01T00:00:00Z".

Definition list_ (id : Z) (title : string) : List :=
  mkList id 1 title "2024-01-01T00:00:00Z" "2024-01-01T00:00:00Z".

(** Three tasks, the first two in list 7. *)
Definition threeTasks : list Task :=
  [task 1 (Some 7) "milk" 0; task 2 (Some 7) "eggs" 1; task 3 None "call" 2].

Definition twoLists : list List := [list_ 7 "errands"; list_ 8 "work"].

Definition cache : QueryCache := mkCache (Some threeTasks) (Some twoLists).

(** The cache before the first tasks fetch has completed. *)
Definition cacheNoTasks : QueryCache := mkCache None (Some twoLists).

(** The cache before anything has been fetched. *)
Definition cacheEmpty : QueryCache := mkCache None None.

(** A signed-in client: both credentials stored, module just loaded. *)
Definition signedIn : ApiClient.State :=
  ApiClient.init (<["refreshToken" := "r0"]> (<["token" := "t0"]> ∅)) false.

Definition request (c : nat) (url : string) : ApiClient.Config :=
  ApiClient.mkConfig c (Some url) false (Some "Bearer t0").

(** One connection of user 1 that never drains its queue while 256
    envelopes are published to that user. *)
Definition envelope : string := "task_deleted 7".

Definition fillOps : list Hub.Op :=
  Hub.Connect 1 1 :: replicate 256 (Hub.Broadcast 1 envelope).

Definition stalledClient : Hub.Client :=
  Hub.mkClient 1 (Hub.mkChan (replicate 256 envelope) 256 false).

Definition stalledHub : Hub.World :=
  Hub.mkWorld {[1 := {[1%positive := true]}]} {[1%positive := stalledClient]}.

(** The same, after a second connection of user 1 and a connection of user 2
    have joined. *)
Definition busyOps : list Hub.Op :=
  fillOps ++ [Hub.Connect 1 2; Hub.Connect 2 3].

Definition busyHub : Hub.World :=
  default Hub.NewHub (Hub.runOps Hub.NewHub busyOps).

Definition fiveRequests : list ApiClient.Config :=
  [request 1 "/api/tasks"; request 2 "/api/lists"; request 3 "/api/tasks/7";
   request 4 "/api/user/me"; request 5 "/api/tasks"].

End Samples.

(** ** Optimistic task and subtask mutations ([useTasks.ts])

    As for the lists, [onMutate] returns the new cache and the context.  The
    object spreads that merge a partial update into an entity
    ([{ ...task, ...updates, updatedAt }], [{ ...s, ...updates }]) are taken
    as functions [merge]. *)

Module UseTasks.

Record CreateTaskOptions := mkCreateTaskOptions {
  opt_text : string;
  opt_filter : option string;
  opt_tags : option (list string);
  opt_listId : option Z
}.

Record CreateContext := mkCreateContext {
  cc_previousTasks : option (list Task);
  cc_tempId : Z
}.

Definition optimisticTask (now : Z) (nowIso : string) (o : CreateTaskOptions)
  (previousTasks : option (list Task)) : Task :=
  mkTask now 0 (opt_listId o) (opt_text o)
         (bool_decide (opt_filter o = Some "completed"%string))
         (bool_decide (opt_filter o = Some "important"%string))
         false
         (match previousTasks with
          | Some pt => Z.of_nat (length pt) + 1
          | None => 1
          end)
         (Some (default [] (opt_tags o)))        (* [tags || []] *)
         (Some [])
         nowIso nowIso.

Definition create_onMutate (now : Z) (nowIso : string) (o : CreateTaskOptions)
  (c : QueryCache) : QueryCache * CreateContext :=
  let previousTasks := tasks c in
  let tempId := now in
  let t := optimisticTask tempId nowIso o previousTasks in
  let c' := match previousTasks with
            | Some pt => setTasks (pt ++ [t]) c
            | None => setTasks [t] c
            end in
  (c', mkCreateContext previousTasks tempId).

Definition create_onSuccess (newTask : Task) (ctx : CreateContext)
  (c : QueryCache) : QueryCache :=
  match tasks c with
  | Some currentTasks =>
      if bool_decide (cc_tempId ctx ≠ 0) then
        setTasks (filter (λ t, task_id t ≠ cc_tempId ctx ∧ task_id t ≠ task_id newTask)
                         currentTasks ++ [newTask]) c
      else c
  | None => c
  end.

(** [if (context?.previousTasks) setQueryData(['tasks'], previousTasks)],
    shared by every [onError] of the file. *)
Definition restoreTasks (previousTasks : option (list Task)) (c : QueryCache)
  : QueryCache :=
  match previousTasks with
  | Some pt => setTasks pt c
  | None => c
  end.

Definition create_onError (ctx : CreateContext) (c : QueryCache) : QueryCache :=
  restoreTasks (cc_previousTasks ctx) c.

(** [useUpdateTask] *)
Definition update_onMutate (merge : Task → Task) (id : Z) (c : QueryCache)
  : QueryCache * option (list Task) :=
  let previousTasks := tasks c in
  let c' := match previousTasks with
            | Some pt =>
                setTasks ((λ task, if bool_decide (task_id task = id)
                                   then merge task else task) <$> pt) c
            | None => c
            end in
  (c', previousTasks).

(** [useDeleteTask] *)
Definition delete_onMutate (id : Z) (c : QueryCache)
  : QueryCache * option (list Task) :=
  let previousTasks := tasks c in
  let c' := match previousTasks with
            | Some pt => setTasks (filter (λ task, task_id task ≠ id) pt) c
            | None => c
            end in
  (c', previousTasks).

(** [useReorderTasks]; the hook has no [onError]. *)
Definition newOrder (previousTasks : list Task) (taskIds : list Z) : list Task :=
  omap (λ x : option Task, x)
       (imap (λ index id,
                with_sortOrder (Z.of_nat index) <$> Reconciler.taskMap previousTasks !! id)
             taskIds).

Definition missing (previousTasks : list Task) (taskIds : list Z) : list Task :=
  filter (λ t, task_id t ∉ taskIds) previousTasks.

Definition reorder_onMutate (taskIds : list Z) (c : QueryCache)
  : QueryCache * option (list Task) :=
  let previousTasks := tasks c in
  let c' := match previousTasks with
            | Some pt => setTasks (newOrder pt taskIds ++ missing pt taskIds) c
            | None => c
            end in
  (c', previousTasks).

(** [useCreateSubtask] *)
Definition optimisticSubtask (now : Z) (nowIso : string) (taskId : Z)
  (text : string) : Subtask :=
  mkSubtask now taskId text false 999 nowIso.

Definition createSubtask_onMutate (now : Z) (nowIso : string) (taskId : Z)
  (text : string) (c : QueryCache) : QueryCache * option (list Task) :=
  let previousTasks := tasks c in
  let c' := match previousTasks with
            | Some pt =>
                setTasks ((λ task,
                            if bool_decide (task_id task = taskId)
                            then with_subtasks
                                   (Some (default [] (task_subtasks task)
                                          ++ [optimisticSubtask now nowIso taskId text]))
                                   task
                            else task) <$> pt) c
            | None => c
            end in
  (c', previousTasks).

(** [task.subtasks?.some(s => s.id === id)] as a condition *)
Definition hasSubtask (id : Z) (task : Task) : bool :=
  from_option (Reconciler.some_subtask_id id) false (task_subtasks task).

(** [useUpdateSubtask]; no [onError]. *)
Definition updateSubtask_onMutate (merge : Subtask → Subtask) (id : Z)
  (c : QueryCache) : QueryCache * option (list Task) :=
  let previousTasks := tasks c in
  let c' := match previousTasks with
            | Some pt =>
                setTasks ((λ task,
                            if hasSubtask id task
                            then with_subtasks
                                   (Some ((λ s, if bool_decide (subtask_id s = id)
                                                then merge s else s)
                                          <$> default [] (task_subtasks task)))
                                   task
                            else task) <$> pt) c
            | None => c
            end in
  (c', previousTasks).

(** [useDeleteSubtask]; no [onError]. *)
Definition deleteSubtask_onMutate (id : Z) (c : QueryCache)
  : QueryCache * option (list Task) :=
  let previousTasks := tasks c in
  let c' := match previousTasks with
            | Some pt =>
                setTasks ((λ task,
                            if hasSubtask id task
                            then with_subtasks
                                   (Some (filter (λ s, subtask_id s ≠ id)
                                                 (default [] (task_subtasks task))))
                                   task
                            else task) <$> pt) c
            | None => c
            end in
  (c', previousTasks).

(** [useCreateSubtask] declares no [onSuccess]: the confirmed subtask of the
    response is not written to the cache.  ([onSettled] invalidates the tasks
    query; the refetch is a later network exchange.) *)
Definition createSubtask_onSuccess (newSubtask : Subtask) (c : QueryCache)
  : QueryCache := c.

End UseTasks.

(** ** Task and subtask creation against the hub's envelope

    The success response and the envelope of the same creation, applied in
    either order after the optimistic insert, as [CreateRace] has them for
    lists. *)

Module TaskCreateRace.

Definition taskSuccessThenBroadcast (now : Z) (nowIso : string)
  (o : UseTasks.CreateTaskOptions) (newTask payload : Task) (c : QueryCache)
  : QueryCache :=
  let '(c1, ctx) := UseTasks.create_onMutate now nowIso o c in
  Reconciler.handleWebSocketEvent
    (UseTasks.create_onSuccess newTask ctx c1) (task_created payload).

Definition taskBroadcastThenSuccess (now : Z) (nowIso : string)
  (o : UseTasks.CreateTaskOptions) (newTask payload : Task) (c : QueryCache)
  : QueryCache :=
  let '(c1, ctx) := UseTasks.create_onMutate now nowIso o c in
  UseTasks.create_onSuccess newTask ctx
    (Reconciler.handleWebSocketEvent c1 (task_created payload)).

Definition subtaskSuccessThenBroadcast (now : Z) (nowIso : string) (taskId : Z)
  (text : string) (newSubtask payload : Subtask) (c : QueryCache) : QueryCache :=
  let '(c1, _) := UseTasks.createSubtask_onMutate now nowIso taskId text c in
  Reconciler.handleWebSocketEvent
    (UseTasks.createSubtask_onSuccess newSubtask c1) (subtask_created payload).

Definition subtaskBroadcastThenSuccess (now : Z) (nowIso : string) (taskId : Z)
  (text : string) (newSubtask payload : Subtask) (c : QueryCache) : QueryCache :=
  let '(c1, _) := UseTasks.createSubtask_onMutate now nowIso taskId text c in
  UseTasks.createSubtask_onSuccess newSubtask
    (Reconciler.handleWebSocketEvent c1 (subtask_created payload)).

(** How many cached tasks carry the id; an absent collection has none. *)
Definition countTaskId (id : Z) (c : QueryCache) : nat :=
  length (filter (λ t, task_id t = id) (default [] (tasks c))).

(** The ids of the subtasks cached under the task [taskId], in order. *)
Definition subtaskIds (taskId : Z) (c : QueryCache) : list Z :=
  t ← filter (λ t, task_id t = taskId) (default [] (tasks c));
  subtask_id <$> default [] (task_subtasks t).

End TaskCreateRace.

(** ** Text frames

    [strings.Split(s, sep)] in Go and [s.split(sep)] in JavaScript for a
    one-character separator: the pieces between the separators, the empty
    ones included; the text without a separator is its only piece.  Texts
    are sequences of bytes; the separators used below (newline, space) are
    single bytes in UTF-8 and occur in no other character's encoding. *)

Module Text.
Import Stdlib.Strings.Ascii.

Fixpoint splitOn (sep : Ascii.ascii) (s : string) : list string :=
  match s with
  | EmptyString => [EmptyString]
  | String a rest =>
      if bool_decide (a = sep) then EmptyString :: splitOn sep rest
      else match splitOn sep rest with
           | [] => [String a EmptyString]
           | piece :: pieces => String a piece :: pieces
           end
  end.

Fixpoint hasChar (a : Ascii.ascii) (s : string) : bool :=
  match s with
  | EmptyString => false
  | String b rest => bool_decide (b = a) || hasChar a rest
  end.

Definition newline : Ascii.ascii := "010"%char.
Definition space : Ascii.ascii := " "%char.

(** The printable ASCII characters other than the space: bytes 33 to 126. *)
Definition visibleChar (a : Ascii.ascii) : bool :=
  let n := Ascii.nat_of_ascii a in (33 <=? n)%nat && (n <=? 126)%nat.

Fixpoint visible (s : string) : bool :=
  match s with
  | EmptyString => true
  | String a rest => visibleChar a && visible rest
  end.

(** A header field value with nothing for an HTTP agent to strip or refuse:
    non-empty words of visible characters, separated by single spaces. *)
Definition plainValue (v : string) : bool :=
  forallb (λ w, negb (bool_decide (w = EmptyString)) && visible w)
          (splitOn space v).

End Text.

(** ** The client transport ([useWebSocket]) *)

Module Transport.

Definition maxReconnectAttempts : nat := 10.

(** [Math.min(1000 * Math.pow(2, reconnectAttempts.current), 30000)] *)
Definition reconnectDelay (attempts : nat) : Z :=
  Z.min (1000 * 2 ^ Z.of_nat attempts) 30000.

(** [ws.onclose]: the delay of the reconnect it schedules, if it schedules
    one.  The timer, when it fires, increments the counter and connects. *)
Definition onclose (attempts : nat) (hasToken : bool) : option Z :=
  if (attempts <? maxReconnectAttempts)%nat && hasToken
  then Some (reconnectDelay attempts) else None.

Section OnMessage.

(** [!msg.trim()]: whether a piece holds white space only; white space is the
    browser's notion. *)
Variable blank : string → bool.

(** [JSON.parse(message)] read as an envelope; [None] when the text makes the
    loop body throw.  Payloads are taken to have the shape of their kind. *)
Variable parse : string → option WebSocketEvent.

(** [event.data.split('\n').filter(msg => msg.trim())] *)
Definition messages (data : string) : list string :=
  filter (λ msg, blank msg = false) (Text.splitOn Text.newline data).

(** The [for] loop inside [try]: the first message that throws ends the
    loop, the [catch] logs. *)
Fixpoint applyMessages (c : QueryCache) (ms : list string) : QueryCache :=
  match ms with
  | [] => c
  | message :: ms' =>
      match parse message with
      | Some wsEvent => applyMessages (Reconciler.handleWebSocketEvent c wsEvent) ms'
      | None => c
      end
  end.

Definition onmessage (c : QueryCache) (data : string) : QueryCache :=
  applyMessages c (messages data).

End OnMessage.

End Transport.

(** ** The server's write pump

    [writePump] takes one message from the queue and, into the same text
    frame, the [n = len(c.send)] messages queued behind it, each preceded by
    a newline. *)

Module WritePump.

Definition frame (message : string) (queued : list string) : string :=
  (message +:+ foldr (λ m acc, String Text.newline m +:+ acc) EmptyString queued)%string.

(** One round of the [case message, ok := <-c.send] branch on a queue that
    holds something: the frame written and the queue left. *)
Definition writeFrame (ch : Hub.Chan) : option (string * Hub.Chan) :=
  match Hub.buf ch with
  | [] => None
  | message :: queued =>
      Some (frame message queued, Hub.mkChan [] (Hub.cap ch) (Hub.closed ch))
  end.

End WritePump.

(** ** Bearer token extraction ([getAuthToken], Go) *)

Module ServerAuth.

Section GetAuthToken.

(** [strings.ToLower] *)
Variable ToLower : string → string.

Definition getAuthToken (auth : string) : string :=
  if bool_decide (auth = EmptyString) then EmptyString
  else match Text.splitOn Text.space auth with
       | [scheme; token] =>
           if bool_decide (ToLower scheme = "bearer"%string) then token
           else EmptyString
       | _ => EmptyString
       end.

End GetAuthToken.

End ServerAuth.

(** ** The task screen ([TaskMaster2010]) *)

Module TaskMaster.

(** The position [Array.prototype.splice] starts at: a negative start counts
    from the end, and the result is clamped to the array. *)
Definition actualStart (start : Z) (len : nat) : nat :=
  if (start <? 0)%Z then Z.to_nat (Z.max (Z.of_nat len + start) 0)
  else Z.to_nat (Z.min start (Z.of_nat len)).

(** [handleReorder]: the ids handed to [reorderTasks.mutate], or [None] when
    nothing is handed over: the filter is not ['all'], or nothing was removed
    by the first [splice], so that [moved] is undefined and [t.id] throws. *)
Definition handleReorder (filter : string) (cached : option (list Task))
  (oldIndex newIndex : Z) : option (list Z) :=
  if bool_decide (filter ≠ "all"%string) then None
  else
    let newOrder := default [] cached in
    let i := actualStart oldIndex (length newOrder) in
    match newOrder !! i with
    | None => None
    | Some moved =>
        let rest := delete i newOrder in
        let j := actualStart newIndex (length rest) in
        Some (task_id <$> (take j rest ++ moved :: drop j rest))
    end.

Record Counts := mkCounts {
  count_all : nat;
  count_active : nat;
  count_completed : nat;
  count_important : nat
}.

(** [getCounts], over [allTasks = tasks || []] *)
Definition getCounts (cached : option (list Task)) : Counts :=
  let allTasks := default [] cached in
  mkCounts (length allTasks)
           (length (filter (λ t, task_completed t = false) allTasks))
           (length (filter (λ t, task_completed t = true) allTasks))
           (length (filter (λ t, task_important t = true) allTasks)).

(** [getListCount] *)
Definition getListCount (cached : option (list Task)) (listId : Z) : nat :=
  length (filter (λ t, task_listId t = Some listId) (default [] cached)).

End TaskMaster.

(** ** More sample data *)

Module Samples2.

(** A notion of blank: spaces only. *)
Fixpoint onlySpaces (s : string) : bool :=
  match s with
  | EmptyString => true
  | String a rest => bool_decide (a = Text.space) && onlySpaces rest
  end.

(** A parser that knows two messages. *)
Definition parseSample (s : string) : option WebSocketEvent :=
  if bool_decide (s = "task_deleted 1"%string) then Some (task_deleted 1)
  else if bool_decide (s = "list_deleted 7"%string) then Some (list_deleted 7)
  else None.

(** Lower-casing of the letters A to Z, other bytes unchanged. *)
Definition asciiLower (a : Ascii.ascii) : Ascii.ascii :=
  let n := Ascii.nat_of_ascii a in
  if (65 <=? n)%nat && (n <=? 90)%nat then Ascii.ascii_of_nat (n + 32) else a.

Fixpoint lower (s : string) : string :=
  match s with
  | EmptyString => EmptyString
  | String a rest => String (asciiLower a) (lower rest)
  end.

End Samples2.

(** ** Operations the hub can be asked for

    [handleWebSocket] registers a client it has just allocated; [readPump]
    unregisters, and [writePump] drains, the client they belong to. *)

Module HubOps.

Definition valid (w : Hub.World) (op : Hub.Op) : Prop :=
  match op with
  | Hub.Connect _ p => Hub.heap w !! p = None
  | Hub.Unregister p | Hub.Receive p => is_Some (Hub.heap w !! p)
  | Hub.Broadcast _ _ => True
  end.

(** A client after the messages [ms] have been queued behind what its open
    queue held. *)
Definition queued (ms : list string) (cl : Hub.Client) : Hub.Client :=
  Hub.setSend (Hub.mkChan (Hub.buf (Hub.send cl) ++ ms) (Hub.cap (Hub.send cl)) false) cl.

End HubOps.

(** ** States of the refresh interceptor

    Between refreshes nothing is queued and nothing is suspended; during a
    refresh exactly one invocation is suspended. *)

Module ApiStates.

Definition settled (s : ApiClient.State) : Prop :=
  ApiClient.idle s ∨
  (ApiClient.isRefreshing s = true ∧ ∃ cfg, ApiClient.awaiting s = [cfg]).

(** The conditions under which an unauthorized response leads to sign-out
    without a refresh: the request is marked as a retry, or targets the
    refresh endpoint, or no refresh token is stored. *)
Definition noRefreshFor (s : ApiClient.State) (cfg : ApiClient.Config) : Prop :=
  ApiClient.retry_ cfg = true ∨
  from_option (ApiClient.includes "/api/auth/refresh") false (ApiClient.url cfg) = true ∨
  ApiClient.getTruthy "refreshToken" s = None.

End ApiStates.

(** * Properties *)

(** ** Reconciler: reordering *)

Module ReconcilerFacts.
Import Reconciler.

Lemma taskMap_snoc ts t :
  taskMap (ts ++ [t]) = <[task_id t := t]> (taskMap ts).
Proof. unfold taskMap. by rewrite foldl_app. Qed.

Lemma taskMap_Some ts i t :
  taskMap ts !! i = Some t → t ∈ ts ∧ task_id t = i.
Proof.
  induction ts as [|x ts IH] using rev_ind; [done|].
  rewrite taskMap_snoc, lookup_insert. case_decide as Hi.
  - intros [= ->]. split; [|done]. apply elem_of_app. right. by left.
  - intros [Hin ?]%IH. split; [|done]. apply elem_of_app. by left.
Qed.

Lemma taskMap_None ts i :
  taskMap ts !! i = None ↔ ∀ t, t ∈ ts → task_id t ≠ i.
Proof.
  induction ts as [|x ts IH] using rev_ind.
  - split; [|done]. intros _ t Ht. by apply elem_of_nil in Ht.
  - rewrite taskMap_snoc, lookup_insert. case_decide as Hi.
    + split; [done|]. intros H. exfalso. apply (H x); [|done].
      apply elem_of_app. right. by left.
    + rewrite IH. split.
      * intros H t [Ht|Ht%list_elem_of_singleton]%elem_of_app; [by apply H|].
        by subst t.
      * intros H t Ht. apply H, elem_of_app. by left.
Qed.

Lemma taskMap_cached ts t :
  t ∈ ts → is_Some (taskMap ts !! task_id t).
Proof.
  intros Ht. destruct (taskMap ts !! task_id t) eqn:E; [by eexists|].
  rewrite taskMap_None in E. by destruct (E t Ht).
Qed.

Lemma with_sortOrder_id k t : task_id (with_sortOrder k t) = task_id t.
Proof. done. Qed.

Lemma with_sortOrder_twice k k' t :
  with_sortOrder k (with_sortOrder k' t) = with_sortOrder k t.
Proof. done. Qed.

(** Dropping the [undefined]s of a list that has none keeps every position. *)
Lemma omap_id_total {A B} (f : nat → A → option B) (l : list A) :
  (∀ k x, l !! k = Some x → is_Some (f k x)) →
  ∀ k, omap (λ o : option B, o) (imap f l) !! k = l !! k ≫= f k.
Proof.
  revert f. induction l as [|x l IH]; intros f Hf k; [done|].
  rewrite imap_cons. destruct (Hf 0%nat x eq_refl) as [y Hy].
  csimpl. rewrite Hy. destruct k as [|k]; simpl; [done|].
  apply (IH (f ∘ S)). intros k' x' Hk'. by apply (Hf (S k')).
Qed.

Lemma elem_of_reorderedTasks ts taskIds x :
  x ∈ reorderedTasks ts taskIds ↔
  ∃ k i t, taskIds !! k = Some i ∧ taskMap ts !! i = Some t ∧
           x = with_sortOrder (Z.of_nat k) t.
Proof.
  unfold reorderedTasks. rewrite list_elem_of_omap. split.
  - intros (o & (k & i & -> & Hk)%elem_of_lookup_imap & Ho).
    apply fmap_Some in Ho as (t & Ht & ->). by exists k, i, t.
  - intros (k & i & t & Hk & Ht & ->).
    exists (Some (with_sortOrder (Z.of_nat k) t)). split; [|done].
    apply elem_of_lookup_imap. exists k, i. by rewrite Ht.
Qed.

Lemma elem_of_missingTasks ts taskIds x :
  x ∈ missingTasks ts taskIds ↔ (task_id x ∉ taskIds) ∧ x ∈ ts.
Proof. unfold missingTasks. by rewrite list_elem_of_filter. Qed.

Lemma filter_none {A} (P : A → Prop) `{!∀ x, Decision (P x)} (l : list A) :
  (∀ x, x ∈ l → ¬ P x) → filter P l = [].
Proof.
  induction l as [|x l IH]; intros Hl; [done|].
  rewrite filter_cons_False by (apply Hl; by left).
  apply IH. intros y Hy. apply Hl. by right.
Qed.

Lemma filter_all {A} (P : A → Prop) `{!∀ x, Decision (P x)} (l : list A) :
  (∀ x, x ∈ l → P x) → filter P l = l.
Proof.
  induction l as [|x l IH]; intros Hl; [done|].
  rewrite filter_cons_True by (apply Hl; by left).
  f_equal. apply IH. intros y Hy. apply Hl. by right.
Qed.

(** After a reorder the map holds, for a named id, the cached task with some
    position written into it, and nothing for a named id that was not
    cached. *)
Lemma taskMap_reorder ts taskIds i :
  i ∈ taskIds →
  match taskMap ts !! i with
  | Some t => ∃ k, taskMap (reorder ts taskIds) !! i = Some (with_sortOrder k t)
  | None => taskMap (reorder ts taskIds) !! i = None
  end.
Proof.
  intros Hi.
  assert (Hel : ∀ x, x ∈ reorder ts taskIds → task_id x = i →
            ∃ k t, taskMap ts !! i = Some t ∧ x = with_sortOrder k t).
  { intros x [Hx|Hx]%elem_of_app Hid.
    - apply elem_of_reorderedTasks in Hx as (k & j & t & Hk & Ht & ->).
      destruct (taskMap_Some _ _ _ Ht) as [_ Hj].
      rewrite with_sortOrder_id in Hid. subst j. rewrite <- Hid. eauto.
    - apply elem_of_missingTasks in Hx as [Hx _]. by rewrite Hid in Hx. }
  destruct (taskMap ts !! i) as [t|] eqn:E.
  - destruct (taskMap (reorder ts taskIds) !! i) as [x|] eqn:E'.
    + destruct (taskMap_Some _ _ _ E') as [Hx Hid].
      destruct (Hel x Hx Hid) as (k & t' & [= <-] & ->). eauto.
    + exfalso. rewrite taskMap_None in E'.
      apply list_elem_of_lookup in Hi as [k Hk].
      apply (E' (with_sortOrder (Z.of_nat k) t)).
      * apply elem_of_app. left. apply elem_of_reorderedTasks.
        by exists k, i, t.
      * rewrite with_sortOrder_id. by destruct (taskMap_Some _ _ _ E).
  - apply taskMap_None. intros x Hx Hid.
    by destruct (Hel x Hx Hid) as (k & t' & ? & _).
Qed.

Lemma reorderedTasks_reorder ts taskIds :
  reorderedTasks (reorder ts taskIds) taskIds = reorderedTasks ts taskIds.
Proof.
  unfold reorderedTasks. f_equal. apply imap_ext. intros k i Hk.
  assert (Hi : i ∈ taskIds) by (apply list_elem_of_lookup; eauto).
  pose proof (taskMap_reorder ts taskIds i Hi) as H.
  destruct (taskMap ts !! i) as [t|].
  - destruct H as [k' ->]. simpl. by rewrite with_sortOrder_twice.
  - by rewrite H.
Qed.

Lemma missingTasks_reorder ts taskIds :
  missingTasks (reorder ts taskIds) taskIds = missingTasks ts taskIds.
Proof.
  unfold reorder, missingTasks at 1. rewrite filter_app.
  rewrite filter_none, filter_all; [done| |].
  - by intros x [? _]%elem_of_missingTasks.
  - intros x (k & i & t & Hk & Ht & ->)%elem_of_reorderedTasks Hx.
    apply Hx. rewrite with_sortOrder_id.
    destruct (taskMap_Some _ _ _ Ht) as [_ ->].
    apply list_elem_of_lookup; eauto.
Qed.

Lemma reorder_idempotent ts taskIds :
  reorder (reorder ts taskIds) taskIds = reorder ts taskIds.
Proof.
  unfold reorder at 1.
  by rewrite reorderedTasks_reorder, missingTasks_reorder.
Qed.

Lemma reorderedTasks_named ts taskIds :
  (∀ i, i ∈ taskIds → i ∈ task_id <$> ts) →
  ∀ k, reorderedTasks ts taskIds !! k =
       taskIds !! k ≫= λ i, with_sortOrder (Z.of_nat k) <$> taskMap ts !! i.
Proof.
  intros Hsub k. unfold reorderedTasks. apply omap_id_total.
  intros k' i Hk'.
  assert (Hi : i ∈ task_id <$> ts) by (apply Hsub, list_elem_of_lookup; eauto).
  apply list_elem_of_fmap in Hi as (t & -> & Ht).
  destruct (taskMap_cached ts t Ht) as [t' ->]. by eexists.
Qed.

(** C3.  When a [tasks_reordered] envelope names only cached ids (a subset,
    strict or not), the new collection is the named tasks in the envelope's
    order, the task at position [k] carrying [sortOrder = k], followed by the
    tasks the envelope does not name, unchanged and in their previous
    relative order; and for every collection and every envelope, applying the
    envelope a second time changes nothing. *)
Theorem tasks_reordered_subset_then_rest (c : QueryCache) (ts : list Task)
    (taskIds : list Z) :
  tasks c = Some ts →
  (∀ i, i ∈ taskIds → i ∈ task_id <$> ts) →
  let c1 := handleWebSocketEvent c (tasks_reordered taskIds) in
  (∃ named,
      tasks c1 = Some (named ++ filter (λ t, task_id t ∉ taskIds) ts) ∧
      length named = length taskIds ∧
      task_id <$> named = taskIds ∧
      ∀ k i, taskIds !! k = Some i →
        ∃ t, t ∈ ts ∧ task_id t = i ∧
             named !! k = Some (with_sortOrder (Z.of_nat k) t)) ∧
  (∀ c' ids, handleWebSocketEvent
               (handleWebSocketEvent c' (tasks_reordered ids))
               (tasks_reordered ids)
             = handleWebSocketEvent c' (tasks_reordered ids)).
Proof.
  intros Hts Hsub c1. split.
  - exists (reorderedTasks ts taskIds).
    pose proof (reorderedTasks_named ts taskIds Hsub) as Hnamed.
    assert (Hpos : ∀ k i, taskIds !! k = Some i →
              ∃ t, t ∈ ts ∧ task_id t = i ∧
                   reorderedTasks ts taskIds !! k
                   = Some (with_sortOrder (Z.of_nat k) t)).
    { intros k i Hk. rewrite Hnamed, Hk. simpl.
      assert (Hi : i ∈ task_id <$> ts) by (apply Hsub, list_elem_of_lookup; eauto).
      apply list_elem_of_fmap in Hi as (t0 & -> & Ht0).
      destruct (taskMap_cached ts t0 Ht0) as [t Ht]. rewrite Ht.
      destruct (taskMap_Some _ _ _ Ht) as [? ?]. by exists t. }
    assert (Hlen : length (reorderedTasks ts taskIds) = length taskIds).
    { apply Nat.le_antisymm.
      - apply Nat.nlt_ge. intros Hlt.
        destruct (lookup_lt_is_Some_2 (reorderedTasks ts taskIds)
                    (length taskIds) Hlt) as [x Hx].
        rewrite Hnamed, (lookup_ge_None_2 taskIds) in Hx by lia. done.
      - apply Nat.nlt_ge. intros Hlt.
        destruct (lookup_lt_is_Some_2 taskIds
                    (length (reorderedTasks ts taskIds)) Hlt) as [i Hi].
        destruct (Hpos _ _ Hi) as (t & _ & _ & Ht).
        rewrite (lookup_ge_None_2 (reorderedTasks ts taskIds)) in Ht by lia.
        done. }
    repeat split; [|done| |done].
    + subst c1. unfold handleWebSocketEvent. by rewrite Hts.
    + apply list_eq. intros k. rewrite list_lookup_fmap.
      destruct (taskIds !! k) as [i|] eqn:Hk.
      * destruct (Hpos _ _ Hk) as (t & _ & <- & ->). done.
      * rewrite (lookup_ge_None_2 (reorderedTasks ts taskIds)); [done|].
        rewrite Hlen. by apply lookup_ge_None.
  - intros c' ids. unfold handleWebSocketEvent.
    destruct (tasks c') as [ts'|] eqn:E; simpl; [|by rewrite E].
    unfold setTasks. simpl. by rewrite reorder_idempotent.
Qed.

End ReconcilerFacts.

Module ReconcilerExamples.
Import Reconciler ReconcilerFacts.

Example reorder_two_of_three :
  task_id <$> reorder Samples.threeTasks [3; 1] = [3; 1; 2] ∧
  task_sortOrder <$> reorder Samples.threeTasks [3; 1] = [0; 1; 1].
Proof. split; vm_compute; reflexivity. Qed.

(** An id the cache does not hold is skipped; a repeated id repeats the task. *)
Example reorder_unknown_and_repeated :
  task_id <$> reorder Samples.threeTasks [9; 2; 2] = [2; 2; 1; 3].
Proof. vm_compute. reflexivity. Qed.

Lemma tasks_reordered_subset_then_rest_witness :
  let c1 := handleWebSocketEvent Samples.cache (tasks_reordered [3; 1]) in
  (∃ named,
      tasks c1 = Some (named ++ filter (λ t, task_id t ∉ [3; 1]) Samples.threeTasks) ∧
      length named = length [3; 1] ∧
      task_id <$> named = [3; 1] ∧
      ∀ k i, [3; 1] !! k = Some i →
        ∃ t, t ∈ Samples.threeTasks ∧ task_id t = i ∧
             named !! k = Some (with_sortOrder (Z.of_nat k) t)) ∧
  (∀ c' ids, handleWebSocketEvent
               (handleWebSocketEvent c' (tasks_reordered ids))
               (tasks_reordered ids)
             = handleWebSocketEvent c' (tasks_reordered ids)).
Proof.
  apply (tasks_reordered_subset_then_rest Samples.cache Samples.threeTasks [3; 1]).
  - reflexivity.
  - intros i Hi. vm_compute.
    apply elem_of_cons in Hi as [->|Hi]; [right; right; left|].
    apply elem_of_cons in Hi as [->|Hi]; [left|].
    by apply elem_of_nil in Hi.
Defined.

End ReconcilerExamples.

(** ** Reconciler: lists and the absent tasks collection *)

Module EnvelopeFacts.
Import Reconciler.

(** C10.  While the tasks collection is absent from the cache, applying an
    envelope of any kind, the list kinds included, changes neither the tasks
    nor the lists collection. *)
Theorem handleWebSocketEvent_absent_tasks (c : QueryCache) (event : WebSocketEvent) :
  tasks c = None → handleWebSocketEvent c event = c.
Proof. intros H. unfold handleWebSocketEvent. by rewrite H. Qed.

Lemma handleWebSocketEvent_absent_tasks_witness :
  tasks Samples.cacheNoTasks = None ∧
  handleWebSocketEvent Samples.cacheNoTasks (list_deleted 7) = Samples.cacheNoTasks.
Proof.
  split; [reflexivity|].
  apply (handleWebSocketEvent_absent_tasks Samples.cacheNoTasks (list_deleted 7)).
  reflexivity.
Defined.

(** A [list_deleted] envelope never touches the tasks collection. *)
Lemma list_deleted_keeps_tasks (c : QueryCache) (id : Z) :
  tasks (handleWebSocketEvent c (list_deleted id)) = tasks c.
Proof.
  unfold handleWebSocketEvent.
  destruct (tasks c) eqn:Ht; [|by rewrite Ht].
  destruct (lists c); simpl; by rewrite ?Ht.
Qed.

(** With the tasks collection present, a [list_deleted] envelope removes the
    list. *)
Lemma list_deleted_removes_list (c : QueryCache) (ts : list Task)
    (ls : list List) (id : Z) :
  tasks c = Some ts → lists c = Some ls →
  lists (handleWebSocketEvent c (list_deleted id))
  = Some (filter (λ l, list_id l ≠ id) ls).
Proof. intros Ht Hl. unfold handleWebSocketEvent. by rewrite Ht, Hl. Qed.

(** C4 (the code falls short of the claim).  On a cache holding lists 7 and 8
    and two tasks of list 7, the envelope [list_deleted 7] removes list 7 and
    leaves all three tasks in place: the tasks of the deleted list stay
    cached.  The optimistic path of the deleting session, [remove_list], does
    remove them. *)
Theorem list_deleted_leaves_tasks_of_list :
  let c1 := handleWebSocketEvent Samples.cache (list_deleted 7) in
  lists c1 = Some [Samples.list_ 8 "work"] ∧
  tasks c1 = Some Samples.threeTasks ∧
  Samples.task 1 (Some 7) "milk" 0 ∈ Samples.threeTasks ∧
  tasks (UseLists.delete_onSuccess 7 Samples.cache)
  = Some [Samples.task 3 None "call" 2].
Proof.
  repeat split; try (vm_compute; reflexivity). by left.
Qed.

End EnvelopeFacts.

(** ** Optimistic list mutations *)

Module UseListsFacts.
Import Reconciler UseLists CreateRace.

Local Open Scope string_scope.
Local Open Scope list_scope.

Lemma countId_app id ls1 ls2 :
  countId id (ls1 ++ ls2) = (countId id ls1 + countId id ls2)%nat.
Proof. unfold countId. by rewrite filter_app, length_app. Qed.

Lemma countId_filtered id t r ls :
  id = t ∨ id = r →
  countId id (filter (λ l, list_id l ≠ t ∧ list_id l ≠ r) ls) = 0%nat.
Proof.
  intros Hid. unfold countId. rewrite ReconcilerFacts.filter_none; [done|].
  intros l [Hl _]%list_elem_of_filter Heq. destruct Hl, Hid; congruence.
Qed.

Lemma countId_singleton id l :
  countId id [l] = if bool_decide (list_id l = id) then 1%nat else 0%nat.
Proof.
  unfold countId. rewrite filter_cons, filter_nil.
  case_decide; case_bool_decide; done.
Qed.

(** What [onSuccess] leaves behind, whatever the collection held before. *)
Lemma create_onSuccess_lists newList ctx c ls :
  lists c = Some ls → cc_tempId ctx ≠ 0 →
  lists (create_onSuccess newList ctx c)
  = Some (filter (λ l, list_id l ≠ cc_tempId ctx ∧ list_id l ≠ list_id newList) ls
          ++ [newList]).
Proof.
  intros Hl Ht. unfold create_onSuccess. rewrite Hl.
  by rewrite bool_decide_eq_true_2.
Qed.

Lemma some_list_id_true id ls :
  some_list_id id ls = true ↔ ∃ l, l ∈ ls ∧ list_id l = id.
Proof.
  unfold some_list_id. rewrite existsb_exists. split.
  - intros (l & Hl%list_elem_of_In & H%bool_decide_eq_true). eauto.
  - intros (l & Hl & H). exists l. split; [by apply list_elem_of_In|].
    by apply bool_decide_eq_true.
Qed.

(** An envelope for a list that is already cached changes nothing. *)
Lemma list_created_present c ls payload :
  lists c = Some ls → some_list_id (list_id payload) ls = true →
  handleWebSocketEvent c (list_created payload) = c.
Proof.
  intros Hl Hs. unfold handleWebSocketEvent.
  destruct (tasks c); [|done]. by rewrite Hl, Hs.
Qed.

Lemma list_created_lists c ls payload :
  lists c = Some ls →
  ∃ ls', lists (handleWebSocketEvent c (list_created payload)) = Some ls'.
Proof.
  intros Hl. unfold handleWebSocketEvent.
  destruct (tasks c); [|eauto]. rewrite Hl.
  destruct (negb _); simpl; eauto.
Qed.

Lemma create_onMutate_lists now nowIso title c :
  lists (create_onMutate now nowIso title c).1
  = Some (default [] (lists c) ++ [optimisticList now nowIso title]) ∧
  cc_tempId (create_onMutate now nowIso title c).2 = now.
Proof. unfold create_onMutate. by destruct (lists c). Qed.

(** *** Rollback *)

Lemma update_rollback nowIso id title c :
  let '(c1, previousLists) := update_onMutate nowIso id title c in
  update_onError previousLists c1 = c.
Proof. unfold update_onMutate, update_onError. by destruct c as [ts [ls|]]. Qed.

Lemma delete_rollback id c :
  let '(c1, ctx) := delete_onMutate id c in delete_onError ctx c1 = c.
Proof.
  unfold delete_onMutate, delete_onError, remove_list.
  by destruct c as [[ts|] [ls|]].
Qed.

Lemma create_rollback_present now nowIso title c ls :
  lists c = Some ls →
  let '(c1, ctx) := create_onMutate now nowIso title c in
  create_onError ctx c1 = c.
Proof.
  intros Hl. unfold create_onMutate, create_onError. rewrite Hl. simpl.
  destruct c; simpl in *. by subst.
Qed.

(** C2 (the code falls short of the claim).  A create issued while the lists
    collection is absent leaves, after the failure handler has run, a
    collection holding the provisional entry: the cache differs from the one
    before the mutation.  (Update and delete roll back from every state, and
    create does from every state whose lists collection is present: see
    [update_rollback], [delete_rollback], [create_rollback_present].) *)
Theorem create_rollback_absent_lists (now : Z) (nowIso title : string)
    (ts : option (list Task)) :
  let c := mkCache ts None in
  let '(c1, ctx) := create_onMutate now nowIso title c in
  create_onError ctx c1 = mkCache ts (Some [optimisticList now nowIso title]) ∧
  create_onError ctx c1 ≠ c.
Proof. simpl. split; [reflexivity | discriminate]. Qed.

(** *** Temporary ids *)

Lemma NoDup_snoc (l : list Z) (x : Z) : NoDup (l ++ [x]) ↔ (x ∉ l) ∧ NoDup l.
Proof.
  rewrite NoDup_app. split.
  - intros (Hl & Hx & _). split; [|done]. intros Hin. apply (Hx x Hin). by left.
  - intros [Hx Hl]. split; [done|]. split.
    + intros y Hy ->%list_elem_of_singleton. done.
    + apply NoDup_singleton.
Qed.

(** C7 (as amended).  The temporary id of an optimistic create is the clock
    reading itself; ids that were unique before the provisional entry is
    added are unique afterwards exactly when the reading is not among them. *)
Theorem create_tempId_unique_iff (now : Z) (nowIso title : string)
    (c : QueryCache) :
  NoDup (listIds c) →
  cc_tempId (create_onMutate now nowIso title c).2 = now ∧
  (NoDup (listIds (create_onMutate now nowIso title c).1) ↔ now ∉ listIds c).
Proof.
  intros Hnd. destruct (create_onMutate_lists now nowIso title c) as [Hl Ht].
  split; [done|]. unfold listIds in *. rewrite Hl. simpl.
  rewrite fmap_app. simpl. rewrite NoDup_snoc. tauto.
Qed.

Lemma create_tempId_unique_iff_witness :
  NoDup (listIds Samples.cache) ∧
  cc_tempId (create_onMutate 1700000000000 "2023-11-14T22:13:20Z" "groceries"
               Samples.cache).2 = 1700000000000 ∧
  (NoDup (listIds (create_onMutate 1700000000000 "2023-11-14T22:13:20Z"
                     "groceries" Samples.cache).1)
   ↔ 1700000000000 ∉ listIds Samples.cache).
Proof.
  assert (H : NoDup (listIds Samples.cache)).
  { vm_compute. apply NoDup_cons. split; [|apply NoDup_singleton].
    intros Hin%list_elem_of_singleton. discriminate Hin. }
  split; [exact H|].
  exact (create_tempId_unique_iff 1700000000000 "2023-11-14T22:13:20Z"
           "groceries" Samples.cache H).
Defined.

(** C7 (counterexample).  1700000000000 is an id the server can assign and a
    value the clock can read; with a list of that id cached, the optimistic
    create at that reading yields a temporary id equal to the server's and a
    collection in which the id occurs twice. *)
Lemma create_tempId_collides :
  let s := 1700000000000 in
  let c := mkCache None (Some [Samples.list_ s "errands"]) in
  let r := create_onMutate s "2023-11-14T22:13:20Z" "groceries" c in
  serverAssignable s ∧ s ∈ listIds c ∧
  cc_tempId r.2 = s ∧ ¬ NoDup (listIds r.1).
Proof.
  cbv zeta. split; [unfold serverAssignable; lia|].
  split; [by left|]. split; [reflexivity|].
  vm_compute. intros H. apply NoDup_cons in H as [H _]. apply H. by left.
Qed.

End UseListsFacts.

(** ** The refresh interceptor *)

Module ApiClientFacts.
Import ApiClient.

Local Open Scope string_scope.
Local Open Scope list_scope.

Example includes_refresh_endpoint :
  includes "/api/auth/refresh" "http://localhost:8080/api/auth/refresh" = true ∧
  includes "/api/auth/refresh" "/api/auth/login" = false.
Proof. split; reflexivity. Qed.

Lemma handleAuthFailure_frame s :
  isRefreshing (handleAuthFailure s) = isRefreshing s ∧
  awaiting (handleAuthFailure s) = awaiting s ∧
  failedQueue (handleAuthFailure s) = failedQueue s.
Proof. unfold handleAuthFailure. by destruct (_ && _). Qed.

Lemma handleAuthFailure_storage s :
  localStorage (handleAuthFailure s)
  = delete "REACT_QUERY_OFFLINE_CACHE"
      (delete "refreshToken" (delete "token" (localStorage s))).
Proof. unfold handleAuthFailure. by destruct (_ && _). Qed.

(** Sign-out removes both stored credentials. *)
Lemma handleAuthFailure_clears s :
  localStorage (handleAuthFailure s) !! "token" = None ∧
  localStorage (handleAuthFailure s) !! "refreshToken" = None.
Proof.
  rewrite handleAuthFailure_storage. split.
  - rewrite lookup_delete_ne, lookup_delete_ne by done. apply lookup_delete_eq.
  - rewrite lookup_delete_ne by done. apply lookup_delete_eq.
Qed.

Lemma handleAuthFailure_effects s :
  effects (handleAuthFailure s)
  = effects s ++ (if bool_decide (is_Some (getTruthy "token" s))
                     && negb (onLoginPage s) then [Reload] else []).
Proof.
  unfold handleAuthFailure. cbn [onLoginPage setStorage].
  destruct (_ && _); cbn; [done|]. by rewrite app_nil_r.
Qed.

Lemma foldl_api s q :
  foldl (λ st cfg, api cfg st) s q
  = mkState (isRefreshing s) (failedQueue s) (localStorage s) (onLoginPage s)
            (awaiting s) (effects s ++ (Request ∘ requestInterceptor s <$> q)).
Proof.
  revert s. induction q as [|cfg q IH]; intros s.
  - destruct s. cbn. by rewrite app_nil_r.
  - cbn [foldl]. rewrite IH. destruct s. cbn.
    rewrite <- app_assoc. done.
Qed.

Lemma foldl_reject s q :
  foldl (λ st cfg, emit (Rejected (call cfg)) st) s q
  = mkState (isRefreshing s) (failedQueue s) (localStorage s) (onLoginPage s)
            (awaiting s) (effects s ++ (Rejected ∘ call <$> q)).
Proof.
  revert s. induction q as [|cfg q IH]; intros s.
  - destruct s. cbn. by rewrite app_nil_r.
  - cbn [foldl]. rewrite IH. destruct s. cbn.
    rewrite <- app_assoc. done.
Qed.

Lemma step_single_flight s e : single_flight s → single_flight (step s e).
Proof.
  intros Hs. destruct e as [[st [cfg|]] | a r | ]; cbn [step].
  - unfold responseError. cbn [config status].
    case_bool_decide; [exact Hs|].
    destruct (_ || _).
    { unfold single_flight. cbn.
      destruct (handleAuthFailure_frame s) as (-> & -> & _). exact Hs. }
    destruct (getTruthy "refreshToken" s).
    2:{ unfold single_flight. cbn.
        destruct (handleAuthFailure_frame s) as (-> & -> & _). exact Hs. }
    destruct Hs as [[Hf Ha]|[Ht Ha]].
    + rewrite Hf. right. cbn. rewrite Ha. eauto.
    + rewrite Ht. right. cbn. done.
  - exact Hs.
  - unfold refreshResolved. destruct (awaiting s) as [|o rest] eqn:Ha; [exact Hs|].
    left. cbn. split; [done|]. unfold processQueue. cbn.
    destruct Hs as [[_ H]|[_ [x H]]]; rewrite Ha in H; [done|].
    injection H as _ ->. rewrite foldl_api. done.
  - unfold refreshRejected. destruct (awaiting s) as [|o rest] eqn:Ha; [exact Hs|].
    left. cbn. split; [done|].
    destruct (handleAuthFailure_frame (processQueue true (setAwaiting rest s)))
      as (_ & -> & _).
    unfold processQueue. cbn.
    destruct Hs as [[_ H]|[_ [x H]]]; rewrite Ha in H; [done|].
    injection H as _ ->. rewrite foldl_reject. done.
Qed.

Lemma run_single_flight s es : single_flight s → single_flight (run s es).
Proof.
  revert s. induction es as [|e es IH]; intros s Hs; [done|].
  apply IH. by apply step_single_flight.
Qed.

(** At most one refresh call is outstanding in every state the module can
    reach. *)
Lemma one_outstanding_refresh ls login es :
  (length (awaiting (run (init ls login) es)) ≤ 1)%nat.
Proof.
  destruct (run_single_flight (init ls login) es) as [[_ ->]|[_ [x ->]]];
    [by left | simpl; lia..].
Qed.

Lemma countRefresh_app es1 es2 :
  countRefresh (es1 ++ es2) = (countRefresh es1 + countRefresh es2)%nat.
Proof. unfold countRefresh. by rewrite filter_app, length_app. Qed.

Lemma countRefresh_call rt : countRefresh [RefreshCall rt] = 1%nat.
Proof. unfold countRefresh. by rewrite filter_cons_True. Qed.

Lemma countRefresh_none es :
  (∀ e, e ∈ es → isRefreshCall e = false) → countRefresh es = 0%nat.
Proof.
  intros Hes. unfold countRefresh. rewrite ReconcilerFacts.filter_none; [done|].
  intros e He. rewrite (Hes e He). done.
Qed.

Lemma run_cons s e es : run s (e :: es) = run (step s e) es.
Proof. done. Qed.

(** While a refresh is outstanding, an unauthorized response to a fresh
    request only joins the queue. *)
Lemma unauthorized_queues s rt cfg :
  isRefreshing s = true → getTruthy "refreshToken" s = Some rt → fresh cfg →
  step s (unauthorized cfg) = setQueue (failedQueue s ++ [cfg]) s.
Proof.
  intros Hr Ht [Hf Hu]. cbn. unfold responseError. cbn [config status].
  rewrite bool_decide_eq_false_2 by (intros H; by apply H).
  by rewrite Hf, Hu, Ht, Hr.
Qed.

Lemma burst_queues rs s rt :
  isRefreshing s = true → getTruthy "refreshToken" s = Some rt →
  Forall fresh rs →
  run s (unauthorized <$> rs) = setQueue (failedQueue s ++ rs) s.
Proof.
  revert s. induction rs as [|cfg rs IH]; intros s Hr Ht Hfr.
  - destruct s. cbn. by rewrite app_nil_r.
  - inversion Hfr as [|?? Hc Hrs]; subst. rewrite fmap_cons, run_cons.
    rewrite (unauthorized_queues s rt cfg Hr Ht Hc).
    rewrite IH; [|exact Hr|exact Ht|exact Hrs]. destruct s. cbn.
    by rewrite <- app_assoc.
Qed.

(** The first unauthorized response of a burst issues the refresh call. *)
Lemma unauthorized_refreshes s rt cfg :
  isRefreshing s = false → getTruthy "refreshToken" s = Some rt → fresh cfg →
  step s (unauthorized cfg)
  = setAwaiting (awaiting s ++ [markRetry cfg])
      (emit (RefreshCall rt) (setRefreshing true s)).
Proof.
  intros Hr Ht [Hf Hu]. cbn. unfold responseError. cbn [config status].
  rewrite bool_decide_eq_false_2 by (intros H; by apply H).
  by rewrite Hf, Hu, Ht, Hr.
Qed.

Lemma burst_state s0 rt r rs :
  idle s0 → getTruthy "refreshToken" s0 = Some rt → Forall fresh (r :: rs) →
  run s0 (unauthorized <$> r :: rs)
  = mkState true rs (localStorage s0) (onLoginPage s0) [markRetry r]
            (effects s0 ++ [RefreshCall rt]).
Proof.
  intros (Hr & Ha & Hq) Ht Hfr. inversion Hfr as [|?? Hc Hrs]; subst.
  rewrite fmap_cons, run_cons.
  rewrite (unauthorized_refreshes s0 rt r Hr Ht Hc).
  rewrite (burst_queues rs _ rt); [|done| |done].
  - destruct s0. cbn in *. by subst.
  - destruct s0. exact Ht.
Qed.

Lemma requestInterceptor_token s tok cfg :
  localStorage s !! "token" = Some tok → tok ≠ "" →
  requestInterceptor s cfg = withAuthorization (bearer tok) cfg.
Proof.
  intros Hl Hne. unfold requestInterceptor, getTruthy. rewrite Hl.
  by rewrite bool_decide_eq_false_2.
Qed.

(** The state after a refresh call resolved with a non-empty token. *)
Lemma refreshResolved_state s o rest tok nr :
  awaiting s = o :: rest → tok ≠ "" →
  refreshResolved tok nr s
  = mkState false []
      (<["refreshToken" := nr]> (<["token" := tok]> (localStorage s)))
      (onLoginPage s) rest
      (effects s ++ (Request ∘ withAuthorization (bearer tok)
                       <$> failedQueue s ++ [o])).
Proof.
  intros Ha Hne. unfold refreshResolved. rewrite Ha. cbv zeta.
  unfold processQueue. rewrite foldl_api.
  set (ls := <["refreshToken" := nr]> (<["token" := tok]> (localStorage s))).
  assert (Hint : ∀ s' cfg, localStorage s' = ls →
            requestInterceptor s' cfg = withAuthorization (bearer tok) cfg).
  { intros s' cfg Hs. apply requestInterceptor_token; [|done].
    rewrite Hs. subst ls. rewrite lookup_insert_ne by done. apply lookup_insert_eq. }
  unfold api, setRefreshing, setQueue, emit.
  cbn [isRefreshing failedQueue localStorage onLoginPage awaiting effects
       setStorage setAwaiting].
  fold ls. rewrite (Hint _ (withAuthorization _ _)) by done.
  f_equal. rewrite <- app_assoc, fmap_app. do 2 f_equal.
  apply list_fmap_ext. intros i x _. cbn. f_equal. by apply Hint.
Qed.

(** The state after a refresh call rejected. *)
Lemma refreshRejected_state s o rest :
  awaiting s = o :: rest →
  refreshRejected s
  = mkState false []
      (delete "REACT_QUERY_OFFLINE_CACHE"
         (delete "refreshToken" (delete "token" (localStorage s))))
      (onLoginPage s) rest
      (effects s ++ (Rejected ∘ call <$> failedQueue s)
         ++ (if bool_decide (is_Some (getTruthy "token" s)) && negb (onLoginPage s)
             then [Reload] else [])
         ++ [Rejected (call o)]).
Proof.
  intros Ha. unfold refreshRejected. rewrite Ha. cbv zeta.
  unfold processQueue. rewrite foldl_reject.
  unfold handleAuthFailure, setRefreshing, setQueue, getTruthy.
  cbn [isRefreshing failedQueue localStorage onLoginPage awaiting effects
       setStorage setAwaiting].
  destruct (_ && _); cbn; rewrite <- ?app_assoc; done.
Qed.

(** C5 (as amended).  From the state between refreshes, with a refresh
    credential stored, let the unauthorized responses to any number of
    requests [r :: rs], none marked as a retry and none aimed at the refresh
    endpoint, all arrive before the refresh settles.  Then exactly one
    refresh call is issued, carrying the stored credential, and it is the one
    outstanding call.  If it resolves with a non-empty access token, both new
    credentials are stored and every one of the requests is sent again with
    the header [Authorization: Bearer <new access token>] (the queued ones
    first, in arrival order, then the one that started the refresh, now
    marked as a retry), with no further refresh call.  If it rejects, every
    one of the requests is rejected, none is sent again, and both stored
    credentials are removed.  In every state reachable from the loaded
    module, at most one refresh call is outstanding. *)
Theorem single_flight_refresh (s0 : State) (rt : string) (r : Config)
    (rs : list Config) :
  idle s0 →
  getTruthy "refreshToken" s0 = Some rt →
  Forall fresh (r :: rs) →
  let s1 := run s0 (unauthorized <$> r :: rs) in
  (effects s1 = effects s0 ++ [RefreshCall rt] ∧
   refreshCalls s1 = S (refreshCalls s0) ∧
   length (awaiting s1) = 1%nat) ∧
  (∀ accessToken newRefreshToken, accessToken ≠ "" →
     let s2 := step s1 (RefreshResolved accessToken newRefreshToken) in
     effects s2 = effects s1 ++
       (Request <$>
          ((λ cfg, mkConfig (call cfg) (url cfg) false
                            (Some ("Bearer " +:+ accessToken))) <$> rs)
          ++ [mkConfig (call r) (url r) true (Some ("Bearer " +:+ accessToken))]) ∧
     refreshCalls s2 = refreshCalls s1 ∧
     localStorage s2 !! "token" = Some accessToken ∧
     localStorage s2 !! "refreshToken" = Some newRefreshToken ∧
     idle s2) ∧
  (let s3 := step s1 RefreshRejected in
     (∀ cfg, cfg ∈ r :: rs → Rejected (call cfg) ∈ effects s3) ∧
     (∀ cfg, Request cfg ∈ effects s3 → Request cfg ∈ effects s0) ∧
     refreshCalls s3 = refreshCalls s1 ∧
     localStorage s3 !! "token" = None ∧
     localStorage s3 !! "refreshToken" = None ∧
     idle s3) ∧
  (∀ ls login es, (length (awaiting (run (init ls login) es)) ≤ 1)%nat).
Proof.
  intros Hidle Ht Hfr s1. subst s1.
  rewrite (burst_state s0 rt r rs Hidle Ht Hfr).
  set (s1 := mkState true rs _ _ _ _).
  assert (Hc1 : refreshCalls s1 = S (refreshCalls s0)).
  { unfold refreshCalls, s1. cbn [effects].
    change (countRefresh (effects s0 ++ [RefreshCall rt]) = S (countRefresh (effects s0))).
    rewrite countRefresh_app, countRefresh_call. lia. }
  split; [|split; [|split]].
  - done.
  - intros accessToken newRefreshToken Hne. cbn [step].
    rewrite (refreshResolved_state s1 (markRetry r) [] _ _ eq_refl Hne).
    cbn [effects localStorage failedQueue s1].
    split; [|split; [|split; [|split]]].
    + f_equal. rewrite !fmap_app, <- !list_fmap_compose. f_equal.
      apply Forall_fmap_ext_1. apply Forall_cons in Hfr as [_ Hrs].
      eapply Forall_impl; [exact Hrs|]. intros cfg [Hretry _]. cbn.
      unfold withAuthorization, bearer. by rewrite Hretry.
    + unfold refreshCalls. cbn [effects].
      change (countRefresh ((effects s0 ++ [RefreshCall rt]) ++
                (Request ∘ withAuthorization (bearer accessToken)
                   <$> rs ++ [markRetry r]))
              = countRefresh (effects s0 ++ [RefreshCall rt])).
      rewrite (countRefresh_app (_ ++ _)), (countRefresh_none (_ <$> _)); [lia|].
      by intros e (x & -> & _)%list_elem_of_fmap.
    + rewrite lookup_insert_ne by done. apply lookup_insert_eq.
    + apply lookup_insert_eq.
    + done.
  - cbv zeta. cbn [step].
    rewrite (refreshRejected_state s1 (markRetry r) [] eq_refl).
    cbn [effects localStorage failedQueue s1 call markRetry onLoginPage].
    match goal with
    | |- context [if ?b then [Reload] else []] =>
        set (rl := if b then [Reload] else []);
        assert (Hrl : ∀ e, e ∈ rl → e = Reload)
          by (intros e; subst rl; generalize b; intros [|];
              [by intros ?%list_elem_of_singleton | by intros ?%elem_of_nil])
    end.
    split; [|split; [|split; [|split; [|split]]]].
    + intros cfg Hin. rewrite !elem_of_app.
      apply elem_of_cons in Hin as [->|Hin].
      * right. right. right. by left.
      * right. left. apply list_elem_of_fmap. by exists cfg.
    + intros cfg Hin. rewrite !elem_of_app in Hin. destruct_or!;
        [ done
        | by apply list_elem_of_singleton in Hin
        | by apply list_elem_of_fmap in Hin as (x & ? & _)
        | by apply Hrl in Hin
        | by apply list_elem_of_singleton in Hin ].
    + unfold refreshCalls. cbn [effects].
      change (countRefresh ((effects s0 ++ [RefreshCall rt]) ++
                (Rejected ∘ call <$> rs) ++ rl ++ [Rejected (call r)])
              = countRefresh (effects s0 ++ [RefreshCall rt])).
      rewrite (countRefresh_app (_ ++ _)),
              (countRefresh_none ((_ <$> _) ++ _)); [lia|].
      intros e He. rewrite !elem_of_app in He. destruct_or!.
      * by apply list_elem_of_fmap in He as (x & -> & _).
      * by apply Hrl in He as ->.
      * by apply list_elem_of_singleton in He as ->.
    + rewrite lookup_delete_ne, lookup_delete_ne by done. apply lookup_delete_eq.
    + rewrite lookup_delete_ne by done. apply lookup_delete_eq.
    + done.
  - apply one_outstanding_refresh.
Qed.

Lemma single_flight_refresh_witness :
  let s0 := Samples.signedIn in
  let s1 := run s0 (unauthorized <$> Samples.fiveRequests) in
  idle s0 ∧
  getTruthy "refreshToken" s0 = Some "r0" ∧
  Forall fresh Samples.fiveRequests ∧
  effects s1 = [RefreshCall "r0"] ∧
  refreshCalls s1 = 1%nat ∧
  effects (step s1 (RefreshResolved "t1" "r1"))
  = RefreshCall "r0" ::
    (Request <$> [mkConfig 2 (Some "/api/lists") false (Some "Bearer t1");
                  mkConfig 3 (Some "/api/tasks/7") false (Some "Bearer t1");
                  mkConfig 4 (Some "/api/user/me") false (Some "Bearer t1");
                  mkConfig 5 (Some "/api/tasks") false (Some "Bearer t1");
                  mkConfig 1 (Some "/api/tasks") true (Some "Bearer t1")]).
Proof.
  assert (H1 : idle Samples.signedIn) by (repeat split).
  assert (H2 : getTruthy "refreshToken" Samples.signedIn = Some "r0")
    by reflexivity.
  assert (H3 : Forall fresh Samples.fiveRequests)
    by (repeat constructor).
  assert (H4 : "t1" ≠ "") by discriminate.
  destruct (single_flight_refresh Samples.signedIn "r0"
              (Samples.request 1 "/api/tasks")
              [Samples.request 2 "/api/lists"; Samples.request 3 "/api/tasks/7";
               Samples.request 4 "/api/user/me"; Samples.request 5 "/api/tasks"]
              H1 H2 H3) as [(He & Hc & _) [Hres _]].
  destruct (Hres "t1" "r1" H4) as [Hr _].
  exact (conj H1 (conj H2 (conj H3 (conj He (conj Hc Hr))))).
Defined.

(** The five requests of the witness, through a successful refresh: one
    refresh call, then five requests carrying the new credential. *)
Example five_requests_resolved :
  effects (run Samples.signedIn
             ((unauthorized <$> Samples.fiveRequests) ++ [RefreshResolved "t1" "r1"]))
  = RefreshCall "r0" ::
    (Request <$> [mkConfig 2 (Some "/api/lists") false (Some "Bearer t1");
                  mkConfig 3 (Some "/api/tasks/7") false (Some "Bearer t1");
                  mkConfig 4 (Some "/api/user/me") false (Some "Bearer t1");
                  mkConfig 5 (Some "/api/tasks") false (Some "Bearer t1");
                  mkConfig 1 (Some "/api/tasks") true (Some "Bearer t1")]).
Proof. vm_compute. reflexivity. Qed.

(** C5 (counterexample).  Three runs of the signed-in client, refresh
    credential stored.

    Five requests are in flight and all fail with an unauthorized status.
    The responses to the first four arrive, the refresh resolves, and only
    then does the response to the fifth arrive: it finds no refresh under
    way and starts one of its own.  Two refresh calls, not one.

    One request, aimed at the refresh endpoint through the client, fails
    with an unauthorized status: no refresh call at all; the client signs
    out and the request is rejected.

    Two requests fail with an unauthorized status and the refresh resolves
    with an empty access token.  The request interceptor takes the stored
    empty token for absent, so the blocked request is sent again with the
    credential it had before the refresh. *)
Lemma late_response_refreshes_again :
  (let s := run Samples.signedIn
              [unauthorized (Samples.request 1 "/api/tasks");
               unauthorized (Samples.request 2 "/api/lists");
               unauthorized (Samples.request 3 "/api/tasks/7");
               unauthorized (Samples.request 4 "/api/user/me");
               RefreshResolved "t1" "r1";
               unauthorized (Samples.request 5 "/api/tasks")] in
   effects s
   = [RefreshCall "r0";
      Request (mkConfig 2 (Some "/api/lists") false (Some "Bearer t1"));
      Request (mkConfig 3 (Some "/api/tasks/7") false (Some "Bearer t1"));
      Request (mkConfig 4 (Some "/api/user/me") false (Some "Bearer t1"));
      Request (mkConfig 1 (Some "/api/tasks") true (Some "Bearer t1"));
      RefreshCall "r1"] ∧
   refreshCalls s = 2%nat) ∧
  (let s := run Samples.signedIn
              [unauthorized (Samples.request 1 "/api/auth/refresh")] in
   effects s = [Reload; Rejected 1] ∧
   refreshCalls s = 0%nat ∧
   localStorage s !! "refreshToken" = None) ∧
  (let s := run Samples.signedIn
              [unauthorized (Samples.request 1 "/api/tasks");
               unauthorized (Samples.request 2 "/api/lists");
               RefreshResolved "" "r1"] in
   effects s
   = [RefreshCall "r0";
      Request (mkConfig 2 (Some "/api/lists") false (Some "Bearer t0"));
      Request (mkConfig 1 (Some "/api/tasks") true (Some "Bearer "))]).
Proof. repeat split; vm_compute; reflexivity. Qed.

(** *** Sign-out *)

(** An unauthorized response to a request that is marked as retried, or that
    targets the refresh endpoint, issues no refresh call: the request is
    rejected and both stored credentials are removed. *)
Lemma retried_or_refresh_endpoint_signs_out s cfg :
  retry_ cfg = true ∨
  from_option (includes "/api/auth/refresh") false (url cfg) = true →
  let s' := step s (unauthorized cfg) in
  refreshCalls s' = refreshCalls s ∧
  Rejected (call cfg) ∈ effects s' ∧
  localStorage s' !! "token" = None ∧
  localStorage s' !! "refreshToken" = None.
Proof.
  intros Hm. cbn. unfold responseError. cbn [config status].
  rewrite bool_decide_eq_false_2 by (intros H; by apply H).
  assert (Hor : retry_ cfg
                || from_option (includes "/api/auth/refresh") false (url cfg) = true).
  { destruct Hm as [-> | ->]; [done|]. by rewrite orb_true_r. }
  rewrite Hor. destruct (handleAuthFailure_clears s) as [H1 H2].
  unfold refreshCalls. cbn [emit effects localStorage].
  rewrite handleAuthFailure_effects.
  split; [|split; [|done]].
  - rewrite <- app_assoc, countRefresh_app.
    match goal with
    | |- (_ + countRefresh ?l = _)%nat =>
        assert (Hz : countRefresh l = 0%nat); [|rewrite Hz; lia]
    end.
    apply countRefresh_none. intros e [He|He]%elem_of_app.
    + revert He. case_match; [|by intros ?%elem_of_nil].
      by intros ->%list_elem_of_singleton.
    + by apply list_elem_of_singleton in He as ->.
  - apply elem_of_app. right. by left.
Qed.

(** C6 (the code falls short of the claim).  Requests 1 and 2 fail with an
    unauthorized status; request 1 starts the refresh and is marked, request
    2 is queued.  After the refresh, request 2 is sent again without the
    mark.  When that retry fails with an unauthorized status too, the client
    does not sign out: it issues a second refresh call and sends request 2 a
    third time.  Two refresh calls, two retries of request 2, and the stored
    credentials are in place at the end. *)
Theorem queued_request_retried_twice :
  let r1 := Samples.request 1 "/api/tasks" in
  let r2 := Samples.request 2 "/api/lists" in
  let retry2 := mkConfig 2 (Some "/api/lists") false (Some "Bearer t1") in
  let s := run Samples.signedIn
             [unauthorized r1; unauthorized r2; RefreshResolved "t1" "r1";
              unauthorized retry2; RefreshResolved "t2" "r2"] in
  effects s = [RefreshCall "r0"; Request retry2;
               Request (mkConfig 1 (Some "/api/tasks") true (Some "Bearer t1"));
               RefreshCall "r1";
               Request (mkConfig 2 (Some "/api/lists") true (Some "Bearer t2"))] ∧
  refreshCalls s = 2%nat ∧
  length (requestsOf 2 s) = 2%nat ∧
  localStorage s !! "token" = Some "t2" ∧
  localStorage s !! "refreshToken" = Some "r2".
Proof. repeat split; vm_compute; reflexivity. Qed.

End ApiClientFacts.

(** ** The connection registry *)

Module HubFacts.
Import Hub.

Local Open Scope list_scope.

Lemma registered_member w uid p : registered w uid p ↔ is_Some (member w uid p).
Proof.
  unfold registered, member. split.
  - intros (cs & -> & H). exact H.
  - destruct (clients w !! uid) as [cs|]; simpl; [eauto|]. by intros [? ?].
Qed.

Lemma elem_of_keys (cs : gmap positive bool) p :
  p ∈ (map_to_list cs).*1 ↔ is_Some (cs !! p).
Proof.
  rewrite list_elem_of_fmap. split.
  - intros ([q b] & -> & H%elem_of_map_to_list). by eexists.
  - intros [b H]. exists (p, b). split; [done|]. by apply elem_of_map_to_list.
Qed.

Lemma broadcastLoop_cons uid m p ps w :
  broadcastLoop uid m (p :: ps) w = broadcastTo uid m p w ≫= broadcastLoop uid m ps.
Proof.
  unfold broadcastLoop. cbn [foldl]. simpl.
  destruct (broadcastTo uid m p w) as [w1|]; [done|]. simpl.
  induction ps as [|q ps IH]; [done|]. exact IH.
Qed.

(** One iteration on a client whose queue is open. *)
Lemma broadcastTo_open uid m p w cl :
  heap w !! p = Some cl → closed (send cl) = false →
  broadcastTo uid m p w
  = Some (mkWorld (if isFull (send cl) then alter (delete p) uid (clients w)
                   else clients w)
                  (<[p := deliver m cl]> (heap w))).
Proof.
  intros Hp Hc. unfold broadcastTo, trySend, close, deliver, isFull.
  rewrite Hp. simpl. rewrite Hc.
  by destruct (length (buf (send cl)) <? cap (send cl))%nat.
Qed.

Lemma member_alter_delete w uid p q h (b : bool) :
  member (mkWorld (if b then alter (delete p) uid (clients w) else clients w) h) uid q
  = if b && bool_decide (q = p) then None else member w uid q.
Proof.
  unfold member. destruct b; cbn [clients andb]; [|done].
  rewrite lookup_alter_eq. destruct (clients w !! uid) as [cs|]; simpl.
  - case_bool_decide as Hq; [subst; apply lookup_delete_eq|].
    by apply lookup_delete_ne.
  - by case_bool_decide.
Qed.

(** The loop over distinct addresses of open clients: it does not panic,
    each visited client has the message queued or its queue closed, a client
    whose queue was full leaves the user's set, and nothing else changes. *)
Lemma broadcastLoop_spec uid m ps :
  NoDup ps → ∀ w,
  (∀ p, p ∈ ps → ∃ cl, heap w !! p = Some cl ∧ closed (send cl) = false) →
  ∃ w', broadcastLoop uid m ps w = Some w' ∧
    (∀ p, p ∉ ps → heap w' !! p = heap w !! p) ∧
    (∀ p cl, p ∈ ps → heap w !! p = Some cl → heap w' !! p = Some (deliver m cl)) ∧
    (∀ uid', uid' ≠ uid → clients w' !! uid' = clients w !! uid') ∧
    (is_Some (clients w' !! uid) ↔ is_Some (clients w !! uid)) ∧
    (∀ p, member w' uid p
          = if bool_decide (p ∈ ps) && fullAt w p then None else member w uid p).
Proof.
  induction 1 as [|p0 ps Hp0 Hnd IH]; intros w Hopen.
  - exists w. split; [done|]. repeat split; try done.
    by intros p cl ?%elem_of_nil.
  - destruct (Hopen p0) as (cl0 & Hcl0 & Hc0); [by left|].
    rewrite broadcastLoop_cons, (broadcastTo_open uid m p0 w cl0 Hcl0 Hc0). simpl.
    set (w1 := mkWorld _ _).
    assert (Hheap1 : ∀ q, q ≠ p0 → heap w1 !! q = heap w !! q).
    { intros q Hq. unfold w1. cbn [heap]. by apply lookup_insert_ne. }
    destruct (IH w1) as (w' & Hrun & Hout & Hin & Hoth & Hsome & Hmem).
    { intros q Hq. rewrite Hheap1 by (intros ->; done). apply Hopen. by right. }
    exists w'. split; [exact Hrun|].
    split; [|split; [|split; [|split]]].
    + intros q Hq. apply not_elem_of_cons in Hq as [Hq0 Hq].
      rewrite (Hout q Hq). by apply Hheap1.
    + intros q cl [->|Hq]%elem_of_cons Hcl.
      * rewrite (Hout p0 Hp0). unfold w1. cbn [heap].
        rewrite lookup_insert_eq. congruence.
      * apply (Hin q cl Hq). rewrite Hheap1; [done|]. by intros ->.
    + intros uid' Hne. rewrite (Hoth uid' Hne). unfold w1. cbn [clients].
      destruct (isFull (send cl0)); [|done]. by rewrite lookup_alter_ne.
    + rewrite Hsome. unfold w1. cbn [clients].
      destruct (isFull (send cl0)); [|done].
      rewrite lookup_alter_eq. by rewrite fmap_is_Some.
    + intros q. rewrite (Hmem q). unfold w1 at 2.
      rewrite member_alter_delete.
      destruct (decide (q = p0)) as [->|Hq].
      * rewrite (bool_decide_eq_false_2 (p0 ∈ ps)) by done.
        rewrite (bool_decide_eq_true_2 (p0 ∈ p0 :: ps)) by (by left).
        rewrite (bool_decide_eq_true_2 (p0 = p0)) by done.
        unfold fullAt. rewrite Hcl0. simpl. by rewrite andb_true_r.
      * rewrite (bool_decide_eq_false_2 (q = p0)) by done.
        rewrite andb_false_r.
        assert (Hf : fullAt w1 q = fullAt w q).
        { unfold fullAt. by rewrite Hheap1. }
        rewrite Hf.
        assert (Hb : bool_decide (q ∈ p0 :: ps) = bool_decide (q ∈ ps)).
        { apply bool_decide_ext. rewrite elem_of_cons. split; [by intros [?|?] | by right]. }
        by rewrite Hb.
Qed.

(** Go visits the keys of a map in no fixed order: the outcome of the loop
    is the same for every order of the visit. *)
Lemma broadcastLoop_order uid m ps ps' w :
  NoDup ps → ps ≡ₚ ps' →
  (∀ p, p ∈ ps → ∃ cl, heap w !! p = Some cl ∧ closed (send cl) = false) →
  broadcastLoop uid m ps w = broadcastLoop uid m ps' w.
Proof.
  intros Hnd Hperm Hopen.
  assert (Hiff : ∀ p, p ∈ ps ↔ p ∈ ps') by (intros p; by rewrite Hperm).
  destruct (broadcastLoop_spec uid m ps Hnd w Hopen)
    as (w1 & -> & Hout1 & Hin1 & Hoth1 & Hsome1 & Hmem1).
  destruct (broadcastLoop_spec uid m ps' (proj1 (NoDup_Permutation_proper _ _ Hperm) Hnd) w)
    as (w2 & -> & Hout2 & Hin2 & Hoth2 & Hsome2 & Hmem2).
  { intros p Hp. apply Hopen. by apply Hiff. }
  f_equal. destruct w1 as [c1 h1], w2 as [c2 h2]. cbn [heap clients] in *.
  f_equal.
  - apply map_eq. intros u. destruct (decide (u = uid)) as [->|Hu].
    + destruct (c1 !! uid) as [cs1|] eqn:E1, (c2 !! uid) as [cs2|] eqn:E2.
      * f_equal. apply map_eq. intros p.
        pose proof (Hmem1 p) as H1. pose proof (Hmem2 p) as H2.
        unfold member in H1, H2. cbn [clients] in H1, H2.
        rewrite E1 in H1. rewrite E2 in H2. simpl in H1, H2.
        rewrite H1, H2. by rewrite (bool_decide_ext _ _ (Hiff p)).
      * exfalso. destruct (proj2 Hsome2) as [? ?]; [|done].
        apply Hsome1. by eexists.
      * exfalso. destruct (proj2 Hsome1) as [? ?]; [|done].
        apply Hsome2. by eexists.
      * done.
    + by rewrite (Hoth1 u Hu), (Hoth2 u Hu).
  - apply map_eq. intros p. destruct (decide (p ∈ ps)) as [Hp|Hp].
    + destruct (Hopen p Hp) as (cl & Hcl & _).
      rewrite (Hin1 p cl Hp Hcl). symmetry. apply Hin2; [by apply Hiff|done].
    + rewrite (Hout1 p Hp). symmetry. apply Hout2. by rewrite <- Hiff.
Qed.

(** The publish on a well-formed registry, client by client. *)
Lemma broadcast_spec w uid m :
  wf w →
  ∃ w', broadcast uid m w = Some w' ∧
    (∀ p, ¬ registered w uid p → heap w' !! p = heap w !! p) ∧
    (∀ p cl, registered w uid p → heap w !! p = Some cl →
             heap w' !! p = Some (deliver m cl)) ∧
    (∀ uid', uid' ≠ uid → clients w' !! uid' = clients w !! uid') ∧
    (is_Some (clients w' !! uid) ↔ is_Some (clients w !! uid)) ∧
    (∀ p, member w' uid p = if fullAt w p then None else member w uid p).
Proof.
  intros Hwf. unfold broadcast.
  set (cs := default ∅ (clients w !! uid)).
  assert (Hkeys : ∀ p, p ∈ (map_to_list cs).*1 ↔ registered w uid p).
  { intros p. rewrite elem_of_keys, registered_member. unfold member, cs.
    destruct (clients w !! uid); simpl; [done|].
    rewrite lookup_empty. split; by intros [? ?]. }
  destruct (broadcastLoop_spec uid m (map_to_list cs).*1
              (NoDup_fst_map_to_list cs) w)
    as (w' & Hrun & Hout & Hin & Hoth & Hsome & Hmem).
  { intros p Hp%Hkeys. destruct (Hwf uid p Hp) as (cl & ? & _ & ?). eauto. }
  exists w'. split; [exact Hrun|]. split; [|split; [|split; [|split]]].
  - intros p Hp. apply Hout. by rewrite Hkeys.
  - intros p cl Hp. apply Hin. by rewrite Hkeys.
  - exact Hoth.
  - exact Hsome.
  - intros p. rewrite Hmem. case_bool_decide as Hp; [done|]. simpl.
    rewrite Hkeys, registered_member in Hp.
    destruct (member w uid p) eqn:E; [by destruct Hp|]. by destruct (fullAt w p).
Qed.

(** What a publish does, connection by connection. *)
Lemma broadcast_outcome (w : World) (uid : Z) (message : string) :
  wf w →
  ∃ w', broadcast uid message w = Some w' ∧
    (∀ p, registered w uid p →
       ∃ cl, heap w !! p = Some cl ∧
         if isFull (send cl)
         then heap w' !! p
              = Some (setSend (mkChan (buf (send cl)) (cap (send cl)) true) cl) ∧
              ¬ registered w' uid p
         else heap w' !! p
              = Some (setSend (mkChan (buf (send cl) ++ [message])
                                      (cap (send cl)) false) cl) ∧
              registered w' uid p) ∧
    (∀ uid' p, uid' ≠ uid → registered w uid' p →
       registered w' uid' p ∧ heap w' !! p = heap w !! p) ∧
    (∀ uid' p, registered w' uid' p → registered w uid' p) ∧
    wf w'.
Proof.
  intros Hwf.
  destruct (broadcast_spec w uid message Hwf)
    as (w' & Hrun & Hout & Hin & Hoth & Hsome & Hmem).
  assert (Hreg : ∀ uid' p, uid' ≠ uid → registered w' uid' p ↔ registered w uid' p).
  { intros uid' p Hne. unfold registered. by rewrite (Hoth uid' Hne). }
  assert (Hmine : ∀ p, registered w uid p →
            ∃ cl, heap w !! p = Some cl ∧ heap w' !! p = Some (deliver message cl) ∧
                  fullAt w p = isFull (send cl) ∧ closed (send cl) = false).
  { intros p Hp. destruct (Hwf uid p Hp) as (cl & Hcl & _ & Hc).
    exists cl. split; [done|]. split; [by apply Hin|]. split; [|done].
    unfold fullAt. by rewrite Hcl. }
  assert (Hsub : ∀ uid' p, registered w' uid' p → registered w uid' p).
  { intros uid' p. destruct (decide (uid' = uid)) as [->|Hne]; [|by rewrite Hreg].
    rewrite !registered_member, Hmem. destruct (fullAt w p); [by intros [? ?]|done]. }
  exists w'. split; [exact Hrun|]. split; [|split; [|split]].
  - intros p Hp. destruct (Hmine p Hp) as (cl & Hcl & Hcl' & Hfull & _).
    exists cl. split; [exact Hcl|]. unfold deliver in Hcl'.
    pose proof (Hmem p) as Hm. rewrite Hfull in Hm.
    destruct (isFull (send cl)).
    + split; [exact Hcl'|]. rewrite registered_member, Hm. by intros [? ?].
    + split; [exact Hcl'|]. rewrite registered_member, Hm.
      by apply registered_member.
  - intros uid' p Hne Hp. split; [by apply Hreg|]. apply Hout. intros Hp'.
    destruct (Hwf uid' p Hp) as (cl & Hcl & Hu & _).
    destruct (Hwf uid p Hp') as (cl' & Hcl' & Hu' & _). congruence.
  - exact Hsub.
  - intros uid' p Hp'. pose proof (Hsub uid' p Hp') as Hp.
    destruct (decide (uid' = uid)) as [->|Hne].
    + destruct (Hmine p Hp) as (cl & Hcl & Hcl' & Hfull & Hc).
      rewrite registered_member, Hmem, Hfull in Hp'.
      unfold deliver in Hcl'. destruct (isFull (send cl)); [by destruct Hp'|].
      destruct (Hwf uid p Hp) as (cl0 & Hcl0 & Hu & _).
      exists (setSend (mkChan (buf (send cl) ++ [message]) (cap (send cl)) false) cl).
      split; [exact Hcl'|]. split; [|done]. simpl. congruence.
    + destruct (Hwf uid' p Hp) as (cl & Hcl & Hu & Hc).
      exists cl. split; [|done]. rewrite <- Hcl. apply Hout. intros Hp0.
      destruct (Hwf uid p Hp0) as (cl' & Hcl' & Hu' & _). congruence.
Qed.

(** C8.  A publish to a user on a well-formed registry completes (it neither
    blocks nor panics).  Each connection of that user whose queue is full has
    its queue closed, nothing added to it, and is no longer registered; each
    connection of that user whose queue has room stays registered with the
    message appended to its queue; every connection of every other user keeps
    its registration and its queue as they were; and the registry is again
    well-formed, so the next publish, to any user, proceeds in the same
    way. *)
Theorem broadcast_drops_full_delivers_rest (w : World) (uid : Z) (message : string) :
  wf w →
  ∃ w', broadcast uid message w = Some w' ∧
    (∀ p, registered w uid p →
       ∃ cl, heap w !! p = Some cl ∧
         if isFull (send cl)
         then heap w' !! p
              = Some (setSend (mkChan (buf (send cl)) (cap (send cl)) true) cl) ∧
              ¬ registered w' uid p
         else heap w' !! p
              = Some (setSend (mkChan (buf (send cl) ++ [message])
                                      (cap (send cl)) false) cl) ∧
              registered w' uid p) ∧
    (∀ uid' p, uid' ≠ uid → registered w uid' p →
       registered w' uid' p ∧ heap w' !! p = heap w !! p) ∧
    (∀ uid' p, registered w' uid' p → registered w uid' p) ∧
    wf w'.
Proof. apply broadcast_outcome. Qed.

Lemma broadcast_wf w uid m w' :
  wf w → broadcast uid m w = Some w' → wf w'.
Proof.
  intros Hwf Hb.
  destruct (broadcast_outcome w uid m Hwf) as (w2 & Hw2 & _ & _ & _ & H).
  rewrite Hw2 in Hb. by injection Hb as <-.
Qed.


(** *** The registry invariants along the hub's operations *)

Lemma wf_NewHub : wf NewHub.
Proof.
  intros uid p (cs & Hcs & _). unfold NewHub in Hcs. cbn in Hcs.
  by rewrite lookup_empty in Hcs.
Qed.

Lemma register_member w p cl :
  heap w !! p = Some cl →
  ∃ w', register p w = Some w' ∧ heap w' = heap w ∧
    ∀ u q, member w' u q
           = if bool_decide (u = userID cl ∧ q = p) then Some true else member w u q.
Proof.
  intros Hp. unfold register. rewrite Hp. simpl. eexists. split; [done|].
  split; [done|]. intros u q. unfold member. cbn [clients].
  destruct (decide (u = userID cl)) as [->|Hu].
  - rewrite lookup_insert_eq. simpl.
    destruct (decide (q = p)) as [->|Hq].
    + rewrite bool_decide_eq_true_2 by done. apply lookup_insert_eq.
    + rewrite bool_decide_eq_false_2 by (by intros [_ ?]).
      rewrite lookup_insert_ne by done.
      destruct (clients w !! userID cl); simpl; [done|apply lookup_empty].
  - rewrite bool_decide_eq_false_2 by (by intros [? _]).
    by rewrite lookup_insert_ne.
Qed.

Lemma connect_wf w uid p w' :
  wf w → apply w (Connect uid p) = Some w' → wf w'.
Proof.
  intros Hwf. cbn [apply]. unfold newClient.
  destruct (heap w !! p) eqn:Hp; [done|]. simpl.
  set (cl := mkClient uid _). set (w1 := mkWorld _ _).
  destruct (register_member w1 p cl) as (w2 & -> & Hh & Hm).
  { unfold w1. cbn. apply lookup_insert_eq. }
  intros [= <-]. intros u q Hq. rewrite registered_member, Hm in Hq.
  rewrite Hh. unfold w1. cbn [heap]. case_bool_decide as Hc.
  - destruct Hc as [-> ->]. exists cl. by rewrite lookup_insert_eq.
  - assert (Hr : registered w u q) by (by apply registered_member).
    destruct (Hwf u q Hr) as (cl' & Hcl' & ? & ?).
    exists cl'. rewrite lookup_insert_ne by congruence. done.
Qed.

Lemma unregister_member w p cl :
  heap w !! p = Some cl → closed (send cl) = false →
  is_Some (member w (userID cl) p) →
  ∃ w', unregister p w = Some w' ∧
    heap w' = <[p := setSend (mkChan (buf (send cl)) (cap (send cl)) true) cl]> (heap w) ∧
    ∀ u q, member w' u q
           = if bool_decide (u = userID cl ∧ q = p) then None else member w u q.
Proof.
  intros Hp Hc [b Hm]. unfold unregister, close. rewrite Hp. simpl.
  unfold member in Hm. destruct (clients w !! userID cl) as [cs|] eqn:Hcs; [|done].
  simpl in Hm. rewrite Hm, Hc. simpl.
  case_bool_decide as Hsz; (eexists; split; [done|]; split; [done|]);
    intros u q; unfold member; cbn [clients].
  - apply map_size_empty_inv in Hsz.
    destruct (decide (u = userID cl)) as [->|Hu].
    + rewrite lookup_delete_eq, Hcs. simpl.
      case_bool_decide as Hq; [done|].
      assert (q ≠ p) by (intros ->; by apply Hq).
      by rewrite <- (lookup_delete_ne cs p q), Hsz, lookup_empty.
    + rewrite bool_decide_eq_false_2 by (by intros [? _]).
      by rewrite lookup_delete_ne.
  - destruct (decide (u = userID cl)) as [->|Hu].
    + rewrite lookup_insert_eq, Hcs. simpl.
      case_bool_decide as Hq.
      * destruct Hq as [_ ->]. apply lookup_delete_eq.
      * apply lookup_delete_ne. intros ->. by apply Hq.
    + rewrite bool_decide_eq_false_2 by (by intros [? _]).
      by rewrite lookup_insert_ne.
Qed.

Lemma unregister_unknown w p cl :
  heap w !! p = Some cl → member w (userID cl) p = None → unregister p w = Some w.
Proof.
  intros Hp Hm. unfold unregister. rewrite Hp. simpl. unfold member in Hm.
  destruct (clients w !! userID cl) as [cs|]; [|done]. simpl in Hm. by rewrite Hm.
Qed.

Lemma unregister_wf w p w' :
  wf w → apply w (Unregister p) = Some w' → wf w'.
Proof.
  intros Hwf. cbn [apply].
  destruct (heap w !! p) as [cl|] eqn:Hp; [|by unfold unregister; rewrite Hp].
  destruct (member w (userID cl) p) as [b|] eqn:Hm.
  - assert (Hr : registered w (userID cl) p) by (apply registered_member; by rewrite Hm).
    destruct (Hwf _ _ Hr) as (cl0 & Hcl0 & _ & Hc). rewrite Hp in Hcl0.
    injection Hcl0 as <-.
    destruct (unregister_member w p cl Hp Hc) as (w2 & -> & Hh & Hm2);
      [by rewrite Hm|].
    intros [= <-]. intros u q Hq. rewrite registered_member, Hm2 in Hq.
    case_bool_decide as Hc2; [by destruct Hq|].
    assert (Hr' : registered w u q) by (by apply registered_member).
    destruct (Hwf u q Hr') as (cl' & Hcl' & Hu & Hc').
    exists cl'. rewrite Hh. split; [|done]. rewrite lookup_insert_ne; [done|].
    intros ->. apply Hc2. split; [|done]. congruence.
  - rewrite (unregister_unknown w p cl Hp Hm). by intros [= <-].
Qed.

Lemma receive_wf w p w' :
  wf w → apply w (Receive p) = Some w' → wf w'.
Proof.
  intros Hwf. cbn [apply]. unfold receive.
  destruct (heap w !! p) as [cl|] eqn:Hp; [|done]. simpl.
  intros [= <-]. intros u q Hq.
  assert (Hr : registered w u q) by exact Hq.
  destruct (Hwf u q Hr) as (cl' & Hcl' & Hu & Hc'). cbn [heap].
  destruct (decide (q = p)) as [->|Hne].
  - rewrite lookup_insert_eq. eexists. split; [done|].
    rewrite Hp in Hcl'. injection Hcl' as <-. done.
  - rewrite lookup_insert_ne by done. eauto.
Qed.

Lemma apply_wf w op w' : wf w → apply w op = Some w' → wf w'.
Proof.
  intros Hwf Hop. destruct op as [uid p|p|uid m|p].
  - by eapply connect_wf.
  - by eapply unregister_wf.
  - by eapply broadcast_wf.
  - by eapply receive_wf.
Qed.

Lemma runOps_wf ops : ∀ w w', wf w → runOps w ops = Some w' → wf w'.
Proof.
  unfold runOps. induction ops as [|op ops IH] using rev_ind; intros w w' Hwf.
  - by intros [= <-].
  - rewrite foldl_app. cbn [foldl].
    destruct (foldl _ (Some w) ops) as [w1|] eqn:E; [|done]. simpl.
    intros Hop. eapply apply_wf; [|exact Hop]. by eapply IH.
Qed.

(** Registration and unregistration never leave an empty set behind. *)
Lemma connect_noEmptySet w uid p w' :
  noEmptySet w → apply w (Connect uid p) = Some w' → noEmptySet w'.
Proof.
  intros Hne. cbn [apply]. unfold newClient.
  destruct (heap w !! p); [done|]. simpl. unfold register. cbn [heap].
  rewrite lookup_insert_eq. simpl. intros [= <-]. intros u cs. cbn [clients].
  destruct (decide (u = uid)) as [->|Hu].
  - rewrite lookup_insert_eq. intros [= <-]. apply insert_non_empty.
  - rewrite lookup_insert_ne by done. apply Hne.
Qed.

Lemma unregister_noEmptySet w p w' :
  noEmptySet w → apply w (Unregister p) = Some w' → noEmptySet w'.
Proof.
  intros Hne. cbn [apply]. unfold unregister.
  destruct (heap w !! p) as [cl|]; [|done]. simpl.
  destruct (clients w !! userID cl) as [cs|] eqn:Hcs; [|by intros [= <-]].
  destruct (cs !! p); [|by intros [= <-]].
  destruct (close (send cl)); [|done]. simpl.
  case_bool_decide as Hsz; intros [= <-]; intros u cs'; cbn [clients].
  - destruct (decide (u = userID cl)) as [->|Hu].
    + by rewrite lookup_delete_eq.
    + rewrite lookup_delete_ne by done. apply Hne.
  - destruct (decide (u = userID cl)) as [->|Hu].
    + rewrite lookup_insert_eq. intros [= <-].
      by apply map_size_non_empty_iff.
    + rewrite lookup_insert_ne by done. apply Hne.
Qed.

Lemma stalledHub_reached : runOps NewHub Samples.fillOps = Some Samples.stalledHub.
Proof. vm_compute. reflexivity. Qed.

Lemma busyHub_reached : runOps NewHub Samples.busyOps = Some Samples.busyHub.
Proof. vm_compute. reflexivity. Qed.

Lemma broadcast_drops_full_delivers_rest_witness :
  wf Samples.busyHub ∧
  ∃ w', broadcast 1 Samples.envelope Samples.busyHub = Some w' ∧
    ¬ registered w' 1 1%positive ∧
    registered w' 1 2%positive ∧
    registered w' 2 3%positive ∧
    wf w'.
Proof.
  assert (Hwf : wf Samples.busyHub)
    by exact (runOps_wf _ _ _ wf_NewHub busyHub_reached).
  split; [exact Hwf|].
  destruct (broadcast_drops_full_delivers_rest Samples.busyHub 1 Samples.envelope Hwf)
    as (w' & Hrun & Hmine & Hothers & _ & Hwf').
  exists w'. split; [exact Hrun|].
  assert (H1 : registered Samples.busyHub 1 1%positive)
    by (eexists; split; [vm_compute; reflexivity | by eexists]).
  assert (H2 : registered Samples.busyHub 1 2%positive)
    by (eexists; split; [vm_compute; reflexivity | by eexists]).
  assert (H3 : registered Samples.busyHub 2 3%positive)
    by (eexists; split; [vm_compute; reflexivity | by eexists]).
  destruct (Hmine _ H1) as (cl1 & Hcl1 & Hout1).
  destruct (Hmine _ H2) as (cl2 & Hcl2 & Hout2).
  vm_compute in Hcl1. injection Hcl1 as <-.
  vm_compute in Hcl2. injection Hcl2 as <-.
  split; [exact (proj2 Hout1)|]. split; [exact (proj2 Hout2)|].
  split; [|exact Hwf']. apply (Hothers 2 3%positive); [done | exact H3].
Defined.

(** A publish that finds every queue of the user full leaves the user
    mapped to the empty set. *)
Lemma broadcast_all_full_leaves_empty_set w uid m cs :
  wf w → clients w !! uid = Some cs →
  (∀ p, is_Some (cs !! p) → fullAt w p = true) →
  ∃ w', broadcast uid m w = Some w' ∧ clients w' !! uid = Some ∅.
Proof.
  intros Hwf Hcs Hfull.
  destruct (broadcast_spec w uid m Hwf) as (w' & Hrun & _ & _ & _ & Hsome & Hmem).
  exists w'. split; [exact Hrun|].
  destruct (proj2 Hsome) as [cs' Hcs']; [by rewrite Hcs|].
  rewrite Hcs'. f_equal. apply map_empty. intros p.
  pose proof (Hmem p) as Hp. unfold member in Hp. rewrite Hcs', Hcs in Hp.
  simpl in Hp. rewrite Hp. destruct (cs !! p) eqn:E; [|by destruct (fullAt w p)].
  by rewrite Hfull.
Qed.

(** C9 (the code falls short of the claim).  User 1 connects once and the
    connection never drains its queue.  After 256 publishes the registry is
    well-formed and maps user 1 to the one connection.  The 257th publish
    finds the queue full, closes it and removes the connection, and leaves
    user 1 mapped to the empty set: the entry is not dropped, while
    unregistering the same connection instead does drop it. *)
Theorem overflow_leaves_empty_set :
  runOps NewHub Samples.fillOps = Some Samples.stalledHub ∧
  noEmptySet Samples.stalledHub ∧
  (∃ w', apply Samples.stalledHub (Broadcast 1 Samples.envelope) = Some w' ∧
         clients w' !! 1 = Some ∅ ∧
         (closed ∘ send <$> heap w' !! 1%positive) = Some true ∧
         ¬ noEmptySet w') ∧
  (∃ w', apply Samples.stalledHub (Unregister 1) = Some w' ∧
         clients w' !! 1 = None).
Proof.
  split; [exact stalledHub_reached|]. split; [|split].
  - intros uid cs. unfold Samples.stalledHub. cbn [clients].
    intros [_ <-]%lookup_singleton_Some. apply map_non_empty_singleton.
  - eexists. split; [vm_compute; reflexivity|].
    split; [reflexivity|]. split; [reflexivity|].
    intros H. by apply (H 1 ∅).
  - eexists. split; [vm_compute; reflexivity|]. reflexivity.
Qed.

End HubFacts.

(** ** Optimistic task mutations and their envelopes *)

Module UseTasksFacts.
Import Reconciler UseTasks.

Local Open Scope list_scope.

Lemma setTasks_setTasks v v' c : setTasks v (setTasks v' c) = setTasks v c.
Proof. done. Qed.

Lemma filter_twice {A} (P : A → Prop) `{!∀ x, Decision (P x)} (l : list A) :
  filter P (filter P l) = filter P l.
Proof. apply ReconcilerFacts.filter_all. by intros x [? _]%list_elem_of_filter. Qed.

Lemma with_subtasks_same task : with_subtasks (task_subtasks task) task = task.
Proof. by destruct task. Qed.

Lemma some_subtask_id_false id ss :
  some_subtask_id id ss = false → ∀ s, s ∈ ss → subtask_id s ≠ id.
Proof.
  unfold some_subtask_id. intros Hf s Hs Heq.
  assert (Ht : existsb (λ s, bool_decide (subtask_id s = id)) ss = true).
  { apply existsb_exists. exists s. split; [by apply list_elem_of_In|].
    by apply bool_decide_eq_true. }
  congruence.
Qed.

(** On every task the hook's removal of a subtask and the envelope's are the
    same function. *)
Lemma delete_subtask_same id task :
  (if hasSubtask id task
   then with_subtasks (Some (filter (λ s, subtask_id s ≠ id)
                                    (default [] (task_subtasks task)))) task
   else task)
  = with_subtasks (filter (λ s, subtask_id s ≠ id) <$> task_subtasks task) task.
Proof.
  unfold hasSubtask. destruct (task_subtasks task) as [ss|] eqn:E; simpl.
  - destruct (some_subtask_id id ss) eqn:Hs; [done|].
    rewrite ReconcilerFacts.filter_all by (by apply some_subtask_id_false).
    rewrite <- E. symmetry. apply with_subtasks_same.
  - rewrite <- E. symmetry. apply with_subtasks_same.
Qed.

(** What the three envelopes do is what the three hooks do. *)
Lemma envelope_agrees_with_optimistic_edit_aux (c : QueryCache) :
  (∀ id, handleWebSocketEvent c (task_deleted id) = (delete_onMutate id c).1) ∧
  (∀ taskIds, handleWebSocketEvent c (tasks_reordered taskIds)
              = (reorder_onMutate taskIds c).1) ∧
  (∀ id, handleWebSocketEvent c (subtask_deleted id)
         = (deleteSubtask_onMutate id c).1).
Proof.
  unfold handleWebSocketEvent, delete_onMutate, reorder_onMutate,
    deleteSubtask_onMutate.
  destruct (tasks c) as [ts|]; simpl; [|done].
  split; [done|]. split; [done|].
  intros id. f_equal. apply list_fmap_ext. intros i task _.
  symmetry. apply delete_subtask_same.
Qed.

(** X1.  The session that receives the envelope of a task deletion, of a
    reorder or of a subtask deletion ends with the same cache as the session
    that made the change optimistically: for every cache, applying the
    envelope gives what the hook's [onMutate] gives. *)
Theorem envelope_agrees_with_optimistic_edit (c : QueryCache) :
  (∀ id, handleWebSocketEvent c (task_deleted id) = (delete_onMutate id c).1) ∧
  (∀ taskIds, handleWebSocketEvent c (tasks_reordered taskIds)
              = (reorder_onMutate taskIds c).1) ∧
  (∀ id, handleWebSocketEvent c (subtask_deleted id)
         = (deleteSubtask_onMutate id c).1).
Proof. apply envelope_agrees_with_optimistic_edit_aux. Qed.

Lemma handle_task_deleted_twice c id :
  handleWebSocketEvent (handleWebSocketEvent c (task_deleted id)) (task_deleted id)
  = handleWebSocketEvent c (task_deleted id).
Proof.
  unfold handleWebSocketEvent. destruct (tasks c) as [ts|] eqn:E; simpl; [|by rewrite E].
  by rewrite setTasks_setTasks, filter_twice.
Qed.

Lemma handle_reordered_twice c ids :
  handleWebSocketEvent (handleWebSocketEvent c (tasks_reordered ids)) (tasks_reordered ids)
  = handleWebSocketEvent c (tasks_reordered ids).
Proof.
  unfold handleWebSocketEvent. destruct (tasks c) as [ts|] eqn:E; simpl; [|by rewrite E].
  by rewrite setTasks_setTasks, ReconcilerFacts.reorder_idempotent.
Qed.

Lemma handle_subtask_deleted_twice c id :
  handleWebSocketEvent (handleWebSocketEvent c (subtask_deleted id)) (subtask_deleted id)
  = handleWebSocketEvent c (subtask_deleted id).
Proof.
  unfold handleWebSocketEvent. destruct (tasks c) as [ts|] eqn:E; simpl; [|by rewrite E].
  rewrite setTasks_setTasks. f_equal. rewrite <- list_fmap_compose.
  apply list_fmap_ext. intros i task _. simpl.
  destruct task as [? ? ? ? ? ? ? ? ? [ss|] ? ?]; simpl; [|done].
  unfold with_subtasks. simpl. by rewrite filter_twice.
Qed.

Lemma handle_list_deleted_after_remove c id :
  handleWebSocketEvent (UseLists.remove_list id c) (list_deleted id)
  = UseLists.remove_list id c.
Proof.
  unfold handleWebSocketEvent, UseLists.remove_list.
  destruct c as [[ts|] [ls|]]; simpl; try done.
  unfold setLists, setTasks. simpl. by rewrite filter_twice.
Qed.

(** X2.  The hub sends every committed change back to the session that made
    it.  After the optimistic deletion of a task, reorder, deletion of a
    subtask or deletion of a list, the echoed envelope of the same change
    leaves the cache exactly as the optimistic edit left it. *)
Theorem own_echo_changes_nothing (c : QueryCache) :
  (∀ id, handleWebSocketEvent (delete_onMutate id c).1 (task_deleted id)
         = (delete_onMutate id c).1) ∧
  (∀ taskIds, handleWebSocketEvent (reorder_onMutate taskIds c).1
                (tasks_reordered taskIds)
              = (reorder_onMutate taskIds c).1) ∧
  (∀ id, handleWebSocketEvent (deleteSubtask_onMutate id c).1 (subtask_deleted id)
         = (deleteSubtask_onMutate id c).1) ∧
  (∀ id, handleWebSocketEvent (UseLists.delete_onMutate id c).1 (list_deleted id)
         = (UseLists.delete_onMutate id c).1).
Proof.
  destruct (envelope_agrees_with_optimistic_edit_aux c) as (Hd & Hr & Hs).
  split; [|split; [|split]].
  - intros id. rewrite <- Hd. apply handle_task_deleted_twice.
  - intros ids. rewrite <- Hr. apply handle_reordered_twice.
  - intros id. rewrite <- Hs. apply handle_subtask_deleted_twice.
  - intros id. apply handle_list_deleted_after_remove.
Qed.

(** *** Create *)

Lemma some_task_id_true id ts :
  some_task_id id ts = true ↔ ∃ t, t ∈ ts ∧ task_id t = id.
Proof.
  unfold some_task_id. rewrite existsb_exists. split.
  - intros (t & Ht%list_elem_of_In & H%bool_decide_eq_true). eauto.
  - intros (t & Ht & H). exists t. split; [by apply list_elem_of_In|].
    by apply bool_decide_eq_true.
Qed.

Lemma some_task_id_false id ts :
  some_task_id id ts = false ↔ id ∉ task_id <$> ts.
Proof.
  rewrite <- not_true_iff_false, some_task_id_true, list_elem_of_fmap.
  split; intros H (t & ? & ?); apply H; exists t; eauto.
Qed.

Lemma create_onSuccess_tasks newTask ctx c ts :
  tasks c = Some ts → cc_tempId ctx ≠ 0 →
  tasks (create_onSuccess newTask ctx c)
  = Some (filter (λ t, task_id t ≠ cc_tempId ctx ∧ task_id t ≠ task_id newTask) ts
          ++ [newTask]).
Proof.
  intros Hl Ht. unfold create_onSuccess. rewrite Hl.
  by rewrite bool_decide_eq_true_2.
Qed.

(** Both arrival orders of response and envelope after an optimistic task
    create. *)
Lemma create_task_race_aux (now : Z) (nowIso : string) (o : CreateTaskOptions)
    (newTask payload : Task) (c : QueryCache) :
  now ≠ 0 →
  task_id payload = task_id newTask →
  let '(c1, ctx) := create_onMutate now nowIso o c in
  let kept := filter (λ t, task_id t ≠ now ∧ task_id t ≠ task_id newTask)
                     (default [] (tasks c)) in
  tasks (handleWebSocketEvent (create_onSuccess newTask ctx c1) (task_created payload))
  = Some (kept ++ [newTask]) ∧
  tasks (create_onSuccess newTask ctx (handleWebSocketEvent c1 (task_created payload)))
  = Some (kept ++ [newTask]).
Proof.
  intros Hnow Hid. unfold create_onMutate.
  set (t := optimisticTask now nowIso o (tasks c)).
  set (P := λ t : Task, task_id t ≠ now ∧ task_id t ≠ task_id newTask).
  assert (Hc1 : ∃ c1, c1 = match tasks c with
                            | Some pt => setTasks (pt ++ [t]) c
                            | None => setTasks [t] c
                            end ∧ tasks c1 = Some (default [] (tasks c) ++ [t])).
  { eexists. split; [done|]. by destruct (tasks c). }
  destruct Hc1 as (c1 & <- & Hts).
  set (ctx := mkCreateContext (tasks c) now).
  assert (Hopt : filter P [t] = []).
  { apply ReconcilerFacts.filter_none. intros x ->%list_elem_of_singleton [H _].
    by apply H. }
  split.
  - assert (Hs : tasks (create_onSuccess newTask ctx c1)
                 = Some (filter P (default [] (tasks c)) ++ [newTask])).
    { rewrite (create_onSuccess_tasks newTask ctx c1 _ Hts Hnow).
      cbn [cc_tempId ctx]. fold P. by rewrite filter_app, Hopt, app_nil_r. }
    unfold handleWebSocketEvent. rewrite Hs.
    assert (Hin : some_task_id (task_id payload)
                    (filter P (default [] (tasks c)) ++ [newTask]) = true).
    { apply some_task_id_true. exists newTask. split; [|done].
      apply elem_of_app. right. by left. }
    by rewrite Hin.
  - assert (Hh : ∃ extra, tasks (handleWebSocketEvent c1 (task_created payload))
                          = Some ((default [] (tasks c) ++ [t]) ++ extra) ∧
                          filter P extra = []).
    { unfold handleWebSocketEvent. rewrite Hts.
      destruct (negb _); simpl.
      - exists [payload]. split; [done|]. apply ReconcilerFacts.filter_none.
        intros x ->%list_elem_of_singleton [_ H]. by apply H.
      - exists []. split; [by rewrite app_nil_r|done]. }
    destruct Hh as (extra & Hh & Hextra).
    rewrite (create_onSuccess_tasks newTask ctx _ _ Hh Hnow).
    cbn [cc_tempId ctx]. fold P.
    by rewrite !filter_app, Hopt, Hextra, !app_nil_r.
Qed.

(** X3.  A task is created optimistically at a non-zero clock reading, the
    request succeeds, and the hub broadcasts the same creation.  Whichever of
    the success response and the envelope is applied first, the tasks
    collection ends as: the tasks cached before whose id is neither the
    temporary nor the confirmed one, in their order, followed by the
    confirmed task.  The provisional entry is gone and the envelope's copy is
    not kept beside the confirmed one. *)
Theorem create_task_race (now : Z) (nowIso : string) (o : CreateTaskOptions)
    (newTask payload : Task) (c : QueryCache) :
  now ≠ 0 →
  task_id payload = task_id newTask →
  let '(c1, ctx) := create_onMutate now nowIso o c in
  let kept := filter (λ t, task_id t ≠ now ∧ task_id t ≠ task_id newTask)
                     (default [] (tasks c)) in
  tasks (handleWebSocketEvent (create_onSuccess newTask ctx c1) (task_created payload))
  = Some (kept ++ [newTask]) ∧
  tasks (create_onSuccess newTask ctx (handleWebSocketEvent c1 (task_created payload)))
  = Some (kept ++ [newTask]).
Proof. apply create_task_race_aux. Qed.

Lemma create_task_race_witness :
  let o := mkCreateTaskOptions "Buy milk #errand" (Some "errand"%string)
             (Some ["errand"%string]) None in
  let newTask := Samples.task 42 None "Buy milk #errand" 4 in
  let '(c1, ctx) := create_onMutate 1700000000000 "2023-11-14T22:13:20Z" o
                      Samples.cache in
  let kept := filter (λ t, task_id t ≠ 1700000000000 ∧ task_id t ≠ task_id newTask)
                     (default [] (tasks Samples.cache)) in
  tasks (handleWebSocketEvent (create_onSuccess newTask ctx c1) (task_created newTask))
  = Some (kept ++ [newTask]) ∧
  tasks (create_onSuccess newTask ctx (handleWebSocketEvent c1 (task_created newTask)))
  = Some (kept ++ [newTask]).
Proof.
  apply (create_task_race 1700000000000 "2023-11-14T22:13:20Z"
           (mkCreateTaskOptions "Buy milk #errand" (Some "errand"%string)
              (Some ["errand"%string]) None)
           (Samples.task 42 None "Buy milk #errand" 4)
           (Samples.task 42 None "Buy milk #errand" 4) Samples.cache);
    [lia | reflexivity].
Defined.

(** *** Rollback *)

(** X4.  The failure handlers of task update, task deletion and subtask
    creation put back the cache that was there before the optimistic edit,
    for every cache and whatever the update merges in; the one of task
    creation does so exactly when the tasks collection was present, and
    otherwise leaves the provisional task as the only entry. *)
Theorem task_rollback_restores (c : QueryCache) :
  (∀ merge id, let '(c1, previousTasks) := update_onMutate merge id c in
               restoreTasks previousTasks c1 = c) ∧
  (∀ id, let '(c1, previousTasks) := delete_onMutate id c in
         restoreTasks previousTasks c1 = c) ∧
  (∀ now nowIso taskId text,
     let '(c1, previousTasks) := createSubtask_onMutate now nowIso taskId text c in
     restoreTasks previousTasks c1 = c) ∧
  (∀ now nowIso o,
     let '(c1, ctx) := create_onMutate now nowIso o c in
     (is_Some (tasks c) → create_onError ctx c1 = c) ∧
     (tasks c = None →
      create_onError ctx c1 = setTasks [optimisticTask now nowIso o None] c)).
Proof.
  destruct c as [[ts|] ls]; repeat split; try done; by intros [? ?].
Qed.

End UseTasksFacts.

(** ** Optimistic creates against the hub's envelope *)

Module CreateRaceFacts.
Import Reconciler CreateRace TaskCreateRace.

Local Open Scope string_scope.
Local Open Scope list_scope.

(** A [list_created] envelope appends its payload or changes nothing. *)
Lemma list_created_appends c ls payload :
  lists c = Some ls →
  ∃ extra, lists (handleWebSocketEvent c (list_created payload)) = Some (ls ++ extra) ∧
           (extra = [] ∨ extra = [payload]).
Proof.
  intros Hl. unfold handleWebSocketEvent.
  destruct (tasks c); [|exists []; rewrite app_nil_r; auto]. rewrite Hl.
  destruct (negb _); simpl; [exists [payload] | exists []; rewrite app_nil_r]; auto.
Qed.

(** Both arrival orders of response and envelope after an optimistic list
    create. *)
Lemma create_list_race now nowIso title newList payload c :
  now ≠ 0 →
  list_id payload = list_id newList →
  let kept := filter (λ l, list_id l ≠ now ∧ list_id l ≠ list_id newList)
                     (default [] (lists c)) in
  lists (successThenBroadcast now nowIso title newList payload c)
  = Some (kept ++ [newList]) ∧
  lists (broadcastThenSuccess now nowIso title newList payload c)
  = Some (kept ++ [newList]).
Proof.
  intros Hnow Hid kept. subst kept.
  unfold successThenBroadcast, broadcastThenSuccess.
  destruct (UseLists.create_onMutate now nowIso title c) as [c1 ctx] eqn:E.
  destruct (UseListsFacts.create_onMutate_lists now nowIso title c) as [Hl Ht].
  rewrite E in Hl, Ht. simpl in Hl, Ht.
  assert (Htemp : UseLists.cc_tempId ctx ≠ 0) by (by rewrite Ht).
  set (P := λ l : List, list_id l ≠ now ∧ list_id l ≠ list_id newList).
  assert (Hopt : filter P [UseLists.optimisticList now nowIso title] = []).
  { apply ReconcilerFacts.filter_none. intros x ->%list_elem_of_singleton [H _].
    by apply H. }
  assert (Hs : lists (UseLists.create_onSuccess newList ctx c1)
               = Some (filter P (default [] (lists c)) ++ [newList])).
  { rewrite (UseListsFacts.create_onSuccess_lists _ _ _ _ Hl Htemp), Ht.
    fold P. by rewrite filter_app, Hopt, app_nil_r. }
  split.
  - rewrite (UseListsFacts.list_created_present _ _ payload Hs); [done|].
    apply UseListsFacts.some_list_id_true. exists newList. split; [|done].
    apply elem_of_app. right. by left.
  - destruct (list_created_appends c1 _ payload Hl) as (extra & Hh & Hextra).
    rewrite (UseListsFacts.create_onSuccess_lists _ _ _ _ Hh Htemp), Ht. fold P.
    assert (Hx : filter P extra = []).
    { destruct Hextra as [-> | ->]; [done|].
      apply ReconcilerFacts.filter_none. intros x ->%list_elem_of_singleton [_ H].
      by apply H. }
    by rewrite !filter_app, Hopt, Hx, !app_nil_r.
Qed.

(** In such a final collection the confirmed id occurs once, and the
    temporary id only if it is the confirmed id. *)
Lemma countId_settled now newList prev :
  let kept := filter (λ l, list_id l ≠ now ∧ list_id l ≠ list_id newList) prev in
  countId (list_id newList) (kept ++ [newList]) = 1%nat ∧
  (now ≠ list_id newList → countId now (kept ++ [newList]) = 0%nat).
Proof.
  intros kept. subst kept.
  rewrite !UseListsFacts.countId_app, !UseListsFacts.countId_filtered,
          !UseListsFacts.countId_singleton by auto.
  split; [by rewrite bool_decide_eq_true_2|].
  intros Hne. by rewrite bool_decide_eq_false_2.
Qed.

Lemma countTask_settled now newTask prev :
  let kept := filter (λ t, task_id t ≠ now ∧ task_id t ≠ task_id newTask) prev in
  length (filter (λ t, task_id t = task_id newTask) (kept ++ [newTask])) = 1%nat ∧
  (now ≠ task_id newTask →
   length (filter (λ t, task_id t = now) (kept ++ [newTask])) = 0%nat).
Proof.
  intros kept. subst kept. rewrite !filter_app, !length_app.
  rewrite (ReconcilerFacts.filter_none (λ t, task_id t = task_id newTask) (filter _ prev)).
  2:{ intros t [[_ H] _]%list_elem_of_filter Heq. by apply H. }
  rewrite (ReconcilerFacts.filter_none (λ t, task_id t = now) (filter _ prev)).
  2:{ intros t [[H _] _]%list_elem_of_filter Heq. by apply H. }
  rewrite !filter_cons, !filter_nil. simpl.
  split.
  - by rewrite decide_True.
  - intros Hne. by rewrite decide_False.
Qed.

(** C1 (as amended).  A list or a task is created optimistically at a
    non-zero clock reading, the request succeeds, and the hub broadcasts the
    same creation.  Whichever of the success response and the envelope is
    applied first, the collection ends as the entities cached before whose
    id is neither the temporary nor the server-assigned one, in their order,
    followed by the confirmed entity.  So it holds exactly one entity with
    the server-assigned id, and none with the temporary id unless the two
    ids are equal (the one entity under that id is then the confirmed one). *)
Theorem create_race_settles (now : Z) (nowIso : string) (c : QueryCache) :
  now ≠ 0 →
  (∀ title newList payload,
     list_id payload = list_id newList →
     let kept := filter (λ l, list_id l ≠ now ∧ list_id l ≠ list_id newList)
                        (default [] (lists c)) in
     ∀ final,
       final = successThenBroadcast now nowIso title newList payload c ∨
       final = broadcastThenSuccess now nowIso title newList payload c →
       lists final = Some (kept ++ [newList]) ∧
       countIn (list_id newList) final = 1%nat ∧
       (now ≠ list_id newList → countIn now final = 0%nat)) ∧
  (∀ o newTask payload,
     task_id payload = task_id newTask →
     let kept := filter (λ t, task_id t ≠ now ∧ task_id t ≠ task_id newTask)
                        (default [] (tasks c)) in
     ∀ final,
       final = taskSuccessThenBroadcast now nowIso o newTask payload c ∨
       final = taskBroadcastThenSuccess now nowIso o newTask payload c →
       tasks final = Some (kept ++ [newTask]) ∧
       countTaskId (task_id newTask) final = 1%nat ∧
       (now ≠ task_id newTask → countTaskId now final = 0%nat)).
Proof.
  intros Hnow. split.
  - intros title newList payload Hid kept final Hfinal.
    destruct (create_list_race now nowIso title newList payload c Hnow Hid)
      as [Ha Hb].
    assert (Hl : lists final = Some (kept ++ [newList]))
      by (by destruct Hfinal as [-> | ->]).
    split; [done|]. unfold countIn. rewrite Hl. simpl.
    apply countId_settled.
  - intros o newTask payload Hid kept final Hfinal.
    pose proof (UseTasksFacts.create_task_race_aux now nowIso o newTask payload c
                  Hnow Hid) as Hrace.
    unfold taskSuccessThenBroadcast, taskBroadcastThenSuccess in Hfinal.
    destruct (UseTasks.create_onMutate now nowIso o c) as [c1 ctx].
    destruct Hrace as [Ha Hb].
    assert (Hl : tasks final = Some (kept ++ [newTask]))
      by (by destruct Hfinal as [-> | ->]).
    split; [done|]. unfold countTaskId. rewrite Hl. simpl.
    apply countTask_settled.
Qed.

Lemma create_race_settles_witness :
  let now := 1700000000000 in
  let nowIso := "2023-11-14T22:13:20Z" in
  let newList := Samples.list_ 42 "groceries" in
  let o := UseTasks.mkCreateTaskOptions "Buy milk" None None (Some 7) in
  let newTask := Samples.task 42 (Some 7) "Buy milk" 4 in
  now ≠ 0 ∧
  lists (successThenBroadcast now nowIso "groceries" newList newList Samples.cache)
  = Some (Samples.twoLists ++ [newList]) ∧
  lists (broadcastThenSuccess now nowIso "groceries" newList newList Samples.cache)
  = Some (Samples.twoLists ++ [newList]) ∧
  tasks (taskSuccessThenBroadcast now nowIso o newTask newTask Samples.cache)
  = Some (Samples.threeTasks ++ [newTask]) ∧
  tasks (taskBroadcastThenSuccess now nowIso o newTask newTask Samples.cache)
  = Some (Samples.threeTasks ++ [newTask]).
Proof.
  assert (Hnow : 1700000000000 ≠ 0) by lia.
  destruct (create_race_settles 1700000000000 "2023-11-14T22:13:20Z" Samples.cache
              Hnow) as [HL HT].
  pose proof (λ final H, proj1 (HL "groceries" (Samples.list_ 42 "groceries")
                                  (Samples.list_ 42 "groceries") eq_refl final H))
    as HL'.
  pose proof (λ final H,
                proj1 (HT (UseTasks.mkCreateTaskOptions "Buy milk" None None (Some 7))
                          (Samples.task 42 (Some 7) "Buy milk" 4)
                          (Samples.task 42 (Some 7) "Buy milk" 4) eq_refl final H))
    as HT'.
  exact (conj Hnow
           (conj (HL' _ (or_introl eq_refl))
              (conj (HL' _ (or_intror eq_refl))
                 (conj (HT' _ (or_introl eq_refl)) (HT' _ (or_intror eq_refl)))))).
Defined.

(** C1 (counterexample).  Three optimistic creates whose request succeeds
    and whose creation is broadcast, on the sample cache; in each, both
    arrival orders end with an entity under the temporary id.

    A subtask of task 1 is created at clock reading 1700000000000 and the
    server assigns id 42.  [useCreateSubtask] has no success handler, so the
    provisional subtask stays beside the confirmed one.

    A list is created at clock reading 0 and the server assigns id 42.  The
    success handler takes the temporary id for absent and leaves the
    provisional list beside the confirmed one.

    A list is created at clock reading 1700000000000 and the server assigns
    that same number: the one entity left carries the temporary id. *)
Lemma create_race_provisional_remains :
  (let confirmed := mkSubtask 42 1 "semi-skimmed" false 0 "2023-11-14T22:13:21Z" in
   let a := subtaskSuccessThenBroadcast 1700000000000 "2023-11-14T22:13:20Z" 1
              "semi-skimmed" confirmed confirmed Samples.cache in
   let b := subtaskBroadcastThenSuccess 1700000000000 "2023-11-14T22:13:20Z" 1
              "semi-skimmed" confirmed confirmed Samples.cache in
   subtaskIds 1 a = [1700000000000; 42] ∧ subtaskIds 1 b = [1700000000000; 42]) ∧
  (let confirmed := Samples.list_ 42 "groceries" in
   let a := successThenBroadcast 0 "1970-01-01T00:00:00Z" "groceries"
              confirmed confirmed Samples.cache in
   let b := broadcastThenSuccess 0 "1970-01-01T00:00:00Z" "groceries"
              confirmed confirmed Samples.cache in
   listIds a = [7; 8; 0; 42] ∧ listIds b = [7; 8; 0; 42]) ∧
  (let confirmed := Samples.list_ 1700000000000 "groceries" in
   let a := successThenBroadcast 1700000000000 "2023-11-14T22:13:20Z" "groceries"
              confirmed confirmed Samples.cache in
   let b := broadcastThenSuccess 1700000000000 "2023-11-14T22:13:20Z" "groceries"
              confirmed confirmed Samples.cache in
   listIds a = [7; 8; 1700000000000] ∧ countIn 1700000000000 a = 1%nat ∧
   listIds b = [7; 8; 1700000000000] ∧ countIn 1700000000000 b = 1%nat).
Proof. repeat split; vm_compute; reflexivity. Qed.

End CreateRaceFacts.

(** ** Envelopes keep task ids unique *)

Module EnvelopeInvariants.
Import Reconciler.

Local Open Scope list_scope.

Lemma taskMap_lookup_cached ts i :
  is_Some (taskMap ts !! i) ↔ i ∈ task_id <$> ts.
Proof.
  split.
  - intros [t [Ht <-]%ReconcilerFacts.taskMap_Some]. by apply list_elem_of_fmap_2.
  - intros (t & -> & Ht)%list_elem_of_fmap. by apply ReconcilerFacts.taskMap_cached.
Qed.

Lemma positioned_ids ts (g : nat → Task → Task) taskIds :
  (∀ k t, task_id (g k t) = task_id t) →
  task_id <$> omap (λ x : option Task, x)
                   (imap (λ index id, g index <$> taskMap ts !! id) taskIds)
  = filter (λ i, i ∈ task_id <$> ts) taskIds.
Proof.
  revert g. induction taskIds as [|i ids IH]; intros g Hg; [done|].
  rewrite imap_cons. csimpl.
  destruct (taskMap ts !! i) as [t|] eqn:E; simpl.
  - rewrite filter_cons_True by (apply taskMap_lookup_cached; by rewrite E).
    csimpl. f_equal.
    + rewrite Hg. by destruct (ReconcilerFacts.taskMap_Some _ _ _ E).
    + apply (IH (λ k, g (S k))). intros k t'. apply Hg.
  - rewrite filter_cons_False.
    + apply (IH (λ k, g (S k))). intros k t'. apply Hg.
    + rewrite <- taskMap_lookup_cached, E. by intros [? ?].
Qed.

(** The ids of the reordered part: the envelope's ids that are cached, in the
    envelope's order. *)
Lemma reorderedTasks_ids ts taskIds :
  task_id <$> reorderedTasks ts taskIds
  = filter (λ i, i ∈ task_id <$> ts) taskIds.
Proof.
  apply (positioned_ids ts (λ index, with_sortOrder (Z.of_nat index))). done.
Qed.

Lemma NoDup_filter_ids (P : Task → Prop) `{!∀ t, Decision (P t)} (ts : list Task) :
  NoDup (task_id <$> ts) → NoDup (task_id <$> filter P ts).
Proof.
  intros Hnd. eapply sublist_NoDup; [exact Hnd|].
  induction ts as [|t ts IH]; [done|].
  rewrite filter_cons. case_decide; csimpl.
  - constructor. apply IH. by apply NoDup_cons in Hnd as [_ ?].
  - constructor. apply IH. by apply NoDup_cons in Hnd as [_ ?].
Qed.

Lemma missingTasks_ids ts taskIds :
  task_id <$> missingTasks ts taskIds
  = filter (λ i, i ∉ taskIds) (task_id <$> ts).
Proof.
  unfold missingTasks. induction ts as [|t ts IH]; [done|].
  rewrite fmap_cons, !filter_cons. case_decide; csimpl; by rewrite IH.
Qed.

(** A reorder whose ids are distinct, on tasks whose ids are distinct,
    rearranges the ids: none is lost, none is repeated. *)
Lemma reorder_ids_Permutation ts taskIds :
  NoDup (task_id <$> ts) → NoDup taskIds →
  task_id <$> reorder ts taskIds ≡ₚ task_id <$> ts.
Proof.
  intros Hts Hids. unfold reorder.
  rewrite fmap_app, reorderedTasks_ids, missingTasks_ids.
  apply NoDup_Permutation; [|done|].
  - apply NoDup_app. split; [by apply NoDup_filter|].
    split; [|by apply NoDup_filter].
    intros i [_ Hi]%list_elem_of_filter [Hn _]%list_elem_of_filter. done.
  - intros i. rewrite elem_of_app, !list_elem_of_filter.
    destruct (decide (i ∈ taskIds)); split.
    + by intros [[? _]|[_ ?]].
    + intros ?. by left.
    + by intros [[? _]|[_ ?]].
    + intros ?. by right.
Qed.

(** X5.  A [tasks_reordered] envelope whose ids are pairwise distinct,
    applied to a collection whose task ids are pairwise distinct, only
    rearranges: the new collection holds the same ids, each once, and has
    the same length, whether or not the envelope names ids that are not
    cached or leaves cached ones out. *)
Theorem tasks_reordered_keeps_every_task (c : QueryCache) (ts : list Task)
    (taskIds : list Z) :
  tasks c = Some ts →
  NoDup (task_id <$> ts) → NoDup taskIds →
  ∃ ts', tasks (handleWebSocketEvent c (tasks_reordered taskIds)) = Some ts' ∧
         task_id <$> ts' ≡ₚ task_id <$> ts ∧
         length ts' = length ts.
Proof.
  intros Hc Hts Hids. exists (reorder ts taskIds).
  split; [unfold handleWebSocketEvent; by rewrite Hc|].
  pose proof (reorder_ids_Permutation ts taskIds Hts Hids) as Hp.
  split; [exact Hp|].
  apply Permutation_length in Hp. by rewrite !length_fmap in Hp.
Qed.

Lemma tasks_reordered_keeps_every_task_witness :
  tasks Samples.cache = Some Samples.threeTasks ∧
  ∃ ts', tasks (handleWebSocketEvent Samples.cache (tasks_reordered [3; 9; 1]))
         = Some ts' ∧
         task_id <$> ts' ≡ₚ task_id <$> Samples.threeTasks ∧
         length ts' = length Samples.threeTasks.
Proof.
  split; [reflexivity|].
  apply (tasks_reordered_keeps_every_task Samples.cache Samples.threeTasks [3; 9; 1]).
  - reflexivity.
  - apply (bool_decide_unpack _). by vm_compute.
  - apply (bool_decide_unpack _). by vm_compute.
Defined.

Lemma fmap_same_ids (f : Task → Task) (ts : list Task) :
  (∀ t, task_id (f t) = task_id t) → task_id <$> (f <$> ts) = task_id <$> ts.
Proof.
  intros Hf. rewrite <- list_fmap_compose. apply list_fmap_ext. intros i t _. apply Hf.
Qed.

(** Every envelope keeps the task ids pairwise distinct. *)
Lemma envelope_keeps_ids_distinct_aux c ts event :
  tasks c = Some ts →
  NoDup (task_id <$> ts) →
  (∀ taskIds, event = tasks_reordered taskIds → NoDup taskIds) →
  ∃ ts', tasks (handleWebSocketEvent c event) = Some ts' ∧
         NoDup (task_id <$> ts').
Proof.
  intros Hc Hts Hev. unfold handleWebSocketEvent. rewrite Hc.
  destruct event as [newTask|updatedTask|id|taskIds|newSubtask|updatedSubtask|id
                     |newList|updatedList|id|type].
  - destruct (some_task_id (task_id newTask) ts) eqn:E; simpl; [eauto|].
    eexists. split; [done|]. rewrite fmap_app. simpl.
    apply UseListsFacts.NoDup_snoc. split; [|done].
    by apply UseTasksFacts.some_task_id_false.
  - eexists. split; [done|].
    assert (Hsame : task_id <$> ((λ task, if bool_decide (task_id task = task_id updatedTask)
                                          then updatedTask else task) <$> ts)
                    = task_id <$> ts).
    { rewrite <- list_fmap_compose. apply list_fmap_ext. intros i t _. simpl.
      by case_bool_decide. }
    by rewrite Hsame.
  - eexists. split; [done|]. simpl.
    by apply NoDup_filter_ids.
  - eexists. split; [done|]. simpl.
    rewrite (reorder_ids_Permutation ts taskIds Hts (Hev taskIds eq_refl)). done.
  - eexists. split; [done|]. simpl. rewrite fmap_same_ids; [done|].
    intros t. unfold add_subtask. repeat case_match; done.
  - eexists. split; [done|]. simpl. by rewrite fmap_same_ids.
  - eexists. split; [done|]. simpl. by rewrite fmap_same_ids.
  - destruct (lists c) as [ls|]; [|eauto].
    destruct (negb _); simpl; eauto.
  - destruct (lists c) as [ls|]; simpl; eauto.
  - destruct (lists c) as [ls|]; simpl; eauto.
  - eauto.
Qed.

(** X6.  Uniqueness of the cached task ids is an invariant of envelope
    application: if no two cached tasks share an id, then after any envelope
    (a reorder envelope naming no id twice) the tasks collection is still
    present and no two cached tasks share an id.  In particular a
    [task_created] envelope for a cached id adds nothing. *)
Theorem envelope_keeps_ids_distinct (c : QueryCache) (ts : list Task)
    (event : WebSocketEvent) :
  tasks c = Some ts →
  NoDup (task_id <$> ts) →
  (∀ taskIds, event = tasks_reordered taskIds → NoDup taskIds) →
  ∃ ts', tasks (handleWebSocketEvent c event) = Some ts' ∧
         NoDup (task_id <$> ts').
Proof. apply envelope_keeps_ids_distinct_aux. Qed.

Lemma envelope_keeps_ids_distinct_witness :
  tasks Samples.cache = Some Samples.threeTasks ∧
  NoDup (task_id <$> Samples.threeTasks) ∧
  ∃ ts', tasks (handleWebSocketEvent Samples.cache
                  (task_created (Samples.task 2 None "eggs again" 5))) = Some ts' ∧
         NoDup (task_id <$> ts').
Proof.
  assert (H : NoDup (task_id <$> Samples.threeTasks)).
  { apply (bool_decide_unpack _). by vm_compute. }
  split; [reflexivity|]. split; [exact H|].
  apply (envelope_keeps_ids_distinct Samples.cache Samples.threeTasks
           (task_created (Samples.task 2 None "eggs again" 5)) eq_refl H).
  intros taskIds Heq. discriminate Heq.
Defined.

(** A stream of envelopes keeps the ids distinct. *)
Lemma envelopes_keep_ids_distinct events : ∀ c ts,
  tasks c = Some ts → NoDup (task_id <$> ts) →
  Forall (λ event, ∀ taskIds, event = tasks_reordered taskIds → NoDup taskIds) events →
  ∃ ts', tasks (foldl handleWebSocketEvent c events) = Some ts' ∧
         NoDup (task_id <$> ts').
Proof.
  induction events as [|event events IH]; intros c ts Hc Hts Hev; [eauto|].
  inversion Hev as [|?? Hhd Htl]; subst. simpl.
  destruct (envelope_keeps_ids_distinct_aux c ts event Hc Hts Hhd) as (ts1 & Hc1 & Hts1).
  by apply (IH _ ts1).
Qed.

End EnvelopeInvariants.

(** ** Frames: coalescing on the server, splitting on the client *)

Module FrameFacts.
Import Text Transport WritePump.

Local Open Scope list_scope.

Lemma app_String a (s t : string) : (String a s +:+ t = String a (s +:+ t))%string.
Proof. reflexivity. Qed.

Lemma string_app_empty_r (s : string) : (s +:+ EmptyString)%string = s.
Proof. induction s as [|a s IH]; [done|]. by rewrite app_String, IH. Qed.

Lemma splitOn_no_sep sep s : hasChar sep s = false → splitOn sep s = [s].
Proof.
  induction s as [|a s IH]; [done|]. simpl.
  intros [Ha Hs]%orb_false_elim. rewrite Ha. by rewrite (IH Hs).
Qed.

Lemma splitOn_app sep s rest :
  hasChar sep s = false →
  splitOn sep (s +:+ String sep rest) = s :: splitOn sep rest.
Proof.
  induction s as [|a s IH].
  - intros _. change (EmptyString +:+ String sep rest)%string with (String sep rest).
    simpl. by rewrite bool_decide_eq_true_2.
  - intros [Ha Hs]%orb_false_elim. rewrite app_String. simpl.
    rewrite Ha. by rewrite (IH Hs).
Qed.

Lemma frame_cons message m queued :
  frame message (m :: queued) = (message +:+ String newline (frame m queued))%string.
Proof. done. Qed.

Lemma splitOn_frame message queued :
  Forall (λ m, hasChar newline m = false) (message :: queued) →
  splitOn newline (frame message queued) = message :: queued.
Proof.
  revert message. induction queued as [|m queued IH]; intros message Hall;
    inversion Hall as [|?? Hm Hq]; subst.
  - unfold frame. simpl. rewrite string_app_empty_r. by apply splitOn_no_sep.
  - rewrite frame_cons, (splitOn_app _ _ _ Hm). f_equal. by apply IH.
Qed.

Section OnMessage.

Variable blank : string → bool.
Variable parse : string → option WebSocketEvent.

(** What the write pump puts into one frame, the client's split takes out
    again. *)
Lemma messages_frame_aux message queued :
  Forall (λ m, hasChar newline m = false ∧ blank m = false) (message :: queued) →
  messages blank (frame message queued) = message :: queued.
Proof.
  intros Hall. unfold messages. rewrite splitOn_frame.
  - apply ReconcilerFacts.filter_all. intros m Hm.
    rewrite Forall_forall in Hall. by destruct (Hall m Hm).
  - eapply Forall_impl; [exact Hall|]. by intros m [? _].
Qed.

(** X7.  The write pump coalesces a message and the messages queued behind
    it into one frame, separated by newlines; the client splits the frame at
    the newlines and drops blank pieces.  When no message contains a newline
    and none is blank, the client recovers exactly the messages that were
    coalesced, in their order. *)
Theorem messages_frame (message : string) (queued : list string) :
  Forall (λ m, hasChar newline m = false ∧ blank m = false) (message :: queued) →
  messages blank (frame message queued) = message :: queued.
Proof. apply messages_frame_aux. Qed.

Lemma applyMessages_parsed c ms events rest :
  parse <$> ms = Some <$> events →
  applyMessages parse c (ms ++ rest)
  = applyMessages parse (foldl Reconciler.handleWebSocketEvent c events) rest.
Proof.
  revert c events. induction ms as [|m ms IH]; intros c [|event events] Heq;
    try done.
  simpl in Heq. injection Heq as Hm Hms. simpl. rewrite Hm. by apply IH.
Qed.

(** X8.  The envelopes of one frame are applied in their order.  When every
    message of the frame parses, the cache ends as the envelopes applied one
    after the other; when a message does not parse, the envelopes before it
    have been applied and those after it, in the same frame, are not. *)
Theorem onmessage_applies_in_order (c : QueryCache) (data : string)
    (ms : list string) (events : list WebSocketEvent) :
  parse <$> ms = Some <$> events →
  (messages blank data = ms →
   onmessage blank parse c data = foldl Reconciler.handleWebSocketEvent c events) ∧
  (∀ bad rest, messages blank data = ms ++ bad :: rest → parse bad = None →
   onmessage blank parse c data = foldl Reconciler.handleWebSocketEvent c events).
Proof.
  intros Hparse. unfold onmessage. split.
  - intros ->. rewrite <- (app_nil_r ms). by rewrite (applyMessages_parsed _ _ events).
  - intros bad rest -> Hbad. rewrite (applyMessages_parsed _ _ events) by done.
    simpl. by rewrite Hbad.
Qed.

End OnMessage.

Lemma messages_frame_witness :
  Forall (λ m, hasChar newline m = false ∧ Samples2.onlySpaces m = false)
         ["task_deleted 1"; "list_deleted 7"]%string ∧
  messages Samples2.onlySpaces (frame "task_deleted 1" ["list_deleted 7"%string])
  = ["task_deleted 1"; "list_deleted 7"]%string.
Proof.
  assert (H : Forall (λ m, hasChar newline m = false ∧ Samples2.onlySpaces m = false)
                     ["task_deleted 1"; "list_deleted 7"]%string)
    by (repeat constructor).
  split; [exact H|].
  exact (messages_frame Samples2.onlySpaces "task_deleted 1" ["list_deleted 7"%string] H).
Defined.

Lemma onmessage_applies_in_order_witness :
  let data := frame "task_deleted 1" ["not json"; "list_deleted 7"]%string in
  Samples2.parseSample <$> ["task_deleted 1"%string] = Some <$> [task_deleted 1] ∧
  onmessage Samples2.onlySpaces Samples2.parseSample Samples.cache data
  = Reconciler.handleWebSocketEvent Samples.cache (task_deleted 1).
Proof.
  cbv zeta.
  assert (H : Samples2.parseSample <$> ["task_deleted 1"%string]
              = Some <$> [task_deleted 1]) by reflexivity.
  split; [exact H|].
  destruct (onmessage_applies_in_order Samples2.onlySpaces Samples2.parseSample
              Samples.cache
              (frame "task_deleted 1" ["not json"; "list_deleted 7"]%string)
              ["task_deleted 1"%string] [task_deleted 1] H) as [_ Hbad].
  apply (Hbad "not json"%string ["list_deleted 7"%string]); reflexivity.
Defined.

End FrameFacts.

(** ** The connection registry: safety and delivery *)

Module HubSafety.
Import Hub HubFacts HubOps.

Local Open Scope list_scope.

Lemma unregister_total w p :
  wf w → is_Some (heap w !! p) → is_Some (unregister p w).
Proof.
  intros Hwf [cl Hp].
  destruct (member w (userID cl) p) as [b|] eqn:Hm.
  - assert (Hr : registered w (userID cl) p) by (apply registered_member; by rewrite Hm).
    destruct (Hwf _ _ Hr) as (cl0 & Hcl0 & _ & Hc). rewrite Hp in Hcl0.
    injection Hcl0 as <-.
    destruct (unregister_member w p cl Hp Hc) as (w2 & -> & _); [by rewrite Hm|].
    by eexists.
  - rewrite (unregister_unknown w p cl Hp Hm). by eexists.
Qed.

Lemma apply_safe_aux w op :
  wf w → valid w op → ∃ w', apply w op = Some w' ∧ wf w'.
Proof.
  intros Hwf Hv.
  assert (Hsome : is_Some (apply w op)).
  { destruct op as [uid p|p|uid m|p]; cbn [apply valid] in *.
    - unfold newClient. rewrite Hv. simpl. unfold register. cbn [heap].
      rewrite lookup_insert_eq. simpl. by eexists.
    - by apply unregister_total.
    - destruct (broadcast_outcome w uid m Hwf) as (w' & -> & _). by eexists.
    - destruct Hv as [cl Hp]. unfold receive. rewrite Hp. simpl. by eexists. }
  destruct Hsome as [w' Hw']. exists w'. split; [done|]. by eapply apply_wf.
Qed.

(** X9.  The hub never panics.  From a registry in which every registered
    client is allocated, filed under its own user and has an open queue,
    each operation (a connection at a fresh address, the unregistration or
    the draining of an allocated client, a publish to any user) completes,
    with no send on a closed queue and no second close, and leaves such a
    registry behind. *)
Theorem apply_safe (w : World) (op : Op) :
  wf w → valid w op → ∃ w', apply w op = Some w' ∧ wf w'.
Proof. apply apply_safe_aux. Qed.

Lemma apply_safe_witness :
  wf Samples.busyHub ∧ valid Samples.busyHub (Unregister 1) ∧
  ∃ w', apply Samples.busyHub (Unregister 1) = Some w' ∧ wf w'.
Proof.
  assert (Hwf : wf Samples.busyHub)
    by exact (runOps_wf _ _ _ wf_NewHub busyHub_reached).
  assert (Hv : valid Samples.busyHub (Unregister 1))
    by (exists Samples.stalledClient; vm_compute; reflexivity).
  split; [exact Hwf|]. split; [exact Hv|].
  exact (apply_safe Samples.busyHub (Unregister 1) Hwf Hv).
Defined.

(** X10.  A connection that a publish has dropped for a full queue is
    unregistered once more when its read pump ends.  That second removal
    finds the connection gone and changes nothing: the queue is not closed
    again. *)
Theorem unregister_after_overflow (w : World) (uid : Z) (message : string)
    (p : positive) :
  wf w → registered w uid p → fullAt w p = true →
  ∃ w', broadcast uid message w = Some w' ∧ unregister p w' = Some w'.
Proof.
  intros Hwf Hp Hfull.
  destruct (broadcast_outcome w uid message Hwf) as (w' & Hrun & Hmine & _ & _ & Hwf').
  exists w'. split; [exact Hrun|].
  destruct (Hmine p Hp) as (cl & Hcl & Hout).
  unfold fullAt in Hfull. rewrite Hcl in Hfull. simpl in Hfull. rewrite Hfull in Hout.
  destruct Hout as [Hcl' Hgone].
  apply (unregister_unknown w' p _ Hcl'). simpl.
  destruct (Hwf uid p Hp) as (cl0 & Hcl0 & Hu & _).
  assert (cl0 = cl) by congruence. subst cl0. rewrite Hu.
  rewrite registered_member in Hgone.
  destruct (member w' uid p); [|done]. destruct Hgone. by eexists.
Qed.

Lemma unregister_after_overflow_witness :
  wf Samples.busyHub ∧ registered Samples.busyHub 1 1%positive ∧
  fullAt Samples.busyHub 1%positive = true ∧
  ∃ w', broadcast 1 Samples.envelope Samples.busyHub = Some w' ∧
        unregister 1%positive w' = Some w'.
Proof.
  assert (Hwf : wf Samples.busyHub)
    by exact (runOps_wf _ _ _ wf_NewHub busyHub_reached).
  assert (H1 : registered Samples.busyHub 1 1%positive)
    by (eexists; split; [vm_compute; reflexivity | by eexists]).
  assert (Hf : fullAt Samples.busyHub 1%positive = true) by (vm_compute; reflexivity).
  split; [exact Hwf|]. split; [exact H1|]. split; [exact Hf|].
  exact (unregister_after_overflow Samples.busyHub 1 Samples.envelope 1%positive Hwf H1 Hf).
Defined.

(** *** Delivery in order *)

Lemma runOps_cons w op ops :
  runOps w (op :: ops) = apply w op ≫= λ w', runOps w' ops.
Proof.
  unfold runOps. cbn [foldl]. simpl.
  destruct (apply w op) as [w1|]; [done|]. simpl.
  induction ops as [|q ops IH]; [done|]. exact IH.
Qed.

Lemma publishes_in_order_aux uid p ms : ∀ w cl,
  wf w → registered w uid p → heap w !! p = Some cl →
  (length (buf (send cl)) + length ms ≤ cap (send cl))%nat →
  ∃ w', runOps w (Broadcast uid <$> ms) = Some w' ∧ wf w' ∧
        registered w' uid p ∧ heap w' !! p = Some (queued ms cl).
Proof.
  induction ms as [|m ms IH]; intros w cl Hwf Hp Hcl Hroom.
  - exists w. split; [done|]. split; [done|]. split; [done|].
    rewrite Hcl. f_equal. unfold queued, setSend. rewrite app_nil_r.
    destruct (Hwf uid p Hp) as (cl0 & Hcl0 & _ & Hc).
    assert (cl0 = cl) by congruence. subst cl0.
    destruct cl as [u [b c cd]]. simpl in *. by subst.
  - rewrite fmap_cons, runOps_cons. cbn [apply].
    destruct (broadcast_outcome w uid m Hwf) as (w1 & -> & Hmine & _ & _ & Hwf1).
    simpl. destruct (Hmine p Hp) as (cl0 & Hcl0 & Hout).
    assert (cl0 = cl) by congruence. subst cl0.
    assert (Hnf : isFull (send cl) = false).
    { unfold isFull. apply negb_false_iff, Nat.ltb_lt. simpl in Hroom. lia. }
    rewrite Hnf in Hout. destruct Hout as [Hcl1 Hp1].
    destruct (IH w1 _ Hwf1 Hp1 Hcl1) as (w' & Hrun & Hwf' & Hp' & Hcl').
    { simpl. rewrite length_app. simpl in *. lia. }
    exists w'. split; [exact Hrun|]. split; [exact Hwf'|]. split; [exact Hp'|].
    rewrite Hcl'. f_equal. unfold queued, setSend. simpl.
    by rewrite <- app_assoc.
Qed.



(** X12.  Connecting, unregistering and draining never leave a user mapped
    to an empty connection set: if no user is mapped to an empty set before
    one of these operations, none is after it. *)
Theorem no_empty_set_kept (w w' : World) (op : Op) :
  noEmptySet w →
  (∀ uid message, op ≠ Broadcast uid message) →
  apply w op = Some w' →
  noEmptySet w'.
Proof.
  intros Hne Hop Happ. destruct op as [uid p|p|uid m|p].
  - by eapply connect_noEmptySet.
  - by eapply unregister_noEmptySet.
  - by destruct (Hop uid m).
  - cbn [apply] in Happ. unfold receive in Happ.
    destruct (heap w !! p); [|done]. simpl in Happ. by injection Happ as <-.
Qed.

Lemma no_empty_set_kept_witness :
  noEmptySet Samples.stalledHub ∧
  ∃ w', apply Samples.stalledHub (Unregister 1) = Some w' ∧ noEmptySet w'.
Proof.
  assert (Hne : noEmptySet Samples.stalledHub).
  { intros uid cs. unfold Samples.stalledHub. cbn [clients].
    intros [_ <-]%lookup_singleton_Some. apply map_non_empty_singleton. }
  split; [exact Hne|].
  assert (Hsome : is_Some (apply Samples.stalledHub (Unregister 1)))
    by (vm_compute; by eexists).
  destruct Hsome as [w' Hw']. exists w'. split; [exact Hw'|].
  apply (no_empty_set_kept Samples.stalledHub w' (Unregister 1) Hne); [|exact Hw'].
  intros uid message Heq. discriminate Heq.
Defined.

(** X13.  Unregistering is idempotent, and so is registering: a second
    unregistration of the same client, or a second registration, completes
    and changes nothing. *)
Theorem unregister_register_idempotent (w w' : World) (p : positive) :
  (unregister p w = Some w' → unregister p w' = Some w') ∧
  (register p w = Some w' → register p w' = Some w').
Proof.
  split.
  - intros Hu. destruct (heap w !! p) as [cl|] eqn:Hp;
      [|by unfold unregister in Hu; rewrite Hp in Hu].
    destruct (member w (userID cl) p) as [b|] eqn:Hm.
    + destruct (closed (send cl)) eqn:Hc.
      { exfalso. unfold unregister, close in Hu. rewrite Hp in Hu. simpl in Hu.
        unfold member in Hm. destruct (clients w !! userID cl) as [cs|]; [|done].
        simpl in Hm. rewrite Hm, Hc in Hu. done. }
      destruct (unregister_member w p cl Hp Hc) as (w2 & Hw2 & Hh & Hm2);
        [by rewrite Hm|].
      rewrite Hu in Hw2. injection Hw2 as <-.
      eapply unregister_unknown; [rewrite Hh; apply lookup_insert_eq|].
      simpl. rewrite Hm2. by rewrite bool_decide_eq_true_2.
    + rewrite (unregister_unknown w p cl Hp Hm) in Hu. injection Hu as <-.
      by apply (unregister_unknown w p cl).
  - unfold register. destruct (heap w !! p) as [cl|] eqn:Hp; [|done]. simpl.
    intros [= <-]. cbn [heap clients]. rewrite Hp. simpl.
    rewrite lookup_insert_eq. simpl. by rewrite insert_insert_eq, insert_insert_eq.
Qed.

Lemma unregister_register_idempotent_witness :
  ∃ w', unregister 1%positive Samples.stalledHub = Some w' ∧
        unregister 1%positive w' = Some w'.
Proof.
  assert (Hsome : is_Some (unregister 1%positive Samples.stalledHub))
    by (vm_compute; by eexists).
  destruct Hsome as [w' Hw']. exists w'. split; [exact Hw'|].
  exact (proj1 (unregister_register_idempotent Samples.stalledHub w' 1%positive) Hw').
Defined.

(** X14.  Go visits the connections of a user in no fixed order.  Whatever
    the order, the publish loop over distinct open connections ends in the
    same registry and the same queues. *)
Theorem publish_order_irrelevant (uid : Z) (message : string)
    (ps ps' : list positive) (w : World) :
  NoDup ps → ps ≡ₚ ps' →
  (∀ p, p ∈ ps → ∃ cl, heap w !! p = Some cl ∧ closed (send cl) = false) →
  broadcastLoop uid message ps w = broadcastLoop uid message ps' w.
Proof. apply broadcastLoop_order. Qed.

Lemma publish_order_irrelevant_witness :
  broadcastLoop 1 Samples.envelope [1; 2]%positive Samples.busyHub
  = broadcastLoop 1 Samples.envelope [2; 1]%positive Samples.busyHub.
Proof.
  apply (publish_order_irrelevant 1 Samples.envelope [1; 2]%positive [2; 1]%positive
           Samples.busyHub).
  - apply (bool_decide_unpack _). by vm_compute.
  - apply perm_swap.
  - intros p Hp.
    apply elem_of_cons in Hp as [->|Hp]; [eexists; split; [vm_compute; reflexivity|done]|].
    apply elem_of_cons in Hp as [->|Hp]; [eexists; split; [vm_compute; reflexivity|done]|].
    by apply elem_of_nil in Hp.
Defined.

End HubSafety.

(** ** From the publish to the reconciler *)

Module EndToEnd.
Import Hub HubFacts HubOps.

Local Open Scope list_scope.

(** X15.  Messages published to a connection with an empty queue and room
    for all of them, then written by the write pump as one frame, reach the
    client's reconciler as the same messages in the same order, provided no
    message contains a newline and none is blank. *)
Theorem published_frame_is_received (blank : string → bool) (w : World) (uid : Z)
    (p : positive) (cl : Client) (m : string) (ms : list string) :
  wf w → registered w uid p → heap w !! p = Some cl →
  buf (send cl) = [] →
  (length (m :: ms) ≤ cap (send cl))%nat →
  Forall (λ x, Text.hasChar Text.newline x = false ∧ blank x = false) (m :: ms) →
  ∃ w' cl' data ch',
    runOps w (Broadcast uid <$> m :: ms) = Some w' ∧
    heap w' !! p = Some cl' ∧
    WritePump.writeFrame (send cl') = Some (data, ch') ∧
    buf ch' = [] ∧
    Transport.messages blank data = m :: ms.
Proof.
  intros Hwf Hp Hcl Hempty Hroom Hclean.
  destruct (HubSafety.publishes_in_order_aux uid p (m :: ms) w cl Hwf Hp Hcl)
    as (w' & Hrun & _ & _ & Hcl').
  { rewrite Hempty. simpl in *. lia. }
  exists w', (queued (m :: ms) cl). eexists. eexists.
  split; [exact Hrun|]. split; [exact Hcl'|].
  unfold WritePump.writeFrame, queued. simpl. rewrite Hempty. simpl.
  split; [reflexivity|]. split; [done|].
  by apply FrameFacts.messages_frame_aux.
Qed.

Lemma published_frame_is_received_witness :
  let cl := mkClient 1 (mkChan [] 256 false) in
  wf Samples.busyHub ∧ registered Samples.busyHub 1 2%positive ∧
  heap Samples.busyHub !! 2%positive = Some cl ∧
  ∃ w' cl' data ch',
    runOps Samples.busyHub
      (Broadcast 1 <$> ["task_deleted 1"; "list_deleted 7"]%string) = Some w' ∧
    heap w' !! 2%positive = Some cl' ∧
    WritePump.writeFrame (send cl') = Some (data, ch') ∧
    buf ch' = [] ∧
    Transport.messages Samples2.onlySpaces data
    = ["task_deleted 1"; "list_deleted 7"]%string.
Proof.
  cbv zeta.
  assert (Hwf : wf Samples.busyHub)
    by exact (runOps_wf _ _ _ wf_NewHub busyHub_reached).
  assert (H2 : registered Samples.busyHub 1 2%positive)
    by (eexists; split; [vm_compute; reflexivity | by eexists]).
  assert (Hcl : heap Samples.busyHub !! 2%positive
                = Some (mkClient 1 (mkChan [] 256 false)))
    by (vm_compute; reflexivity).
  split; [exact Hwf|]. split; [exact H2|]. split; [exact Hcl|].
  apply (published_frame_is_received Samples2.onlySpaces Samples.busyHub 1 2%positive
           (mkClient 1 (mkChan [] 256 false)) "task_deleted 1"
           ["list_deleted 7"%string] Hwf H2 Hcl).
  - reflexivity.
  - simpl. lia.
  - repeat constructor.
Defined.

End EndToEnd.

(** ** Reconnect backoff *)

Module TransportFacts.
Import Transport.

Lemma pow2_ge_32 (n : nat) : (5 ≤ n)%nat → 32 ≤ 2 ^ Z.of_nat n.
Proof.
  intros Hn. change 32 with (2 ^ 5).
  apply Z.pow_le_mono_r; lia.
Qed.

(** X16.  The delay before a reconnect doubles from one second with every
    failed attempt and is capped at thirty seconds: it lies between 1000 and
    30000 ms, never decreases, doubles through the first five attempts
    (1, 2, 4, 8, 16 s) and is 30000 ms from the sixth on.  A closed socket
    schedules a reconnect exactly when fewer than ten attempts have been
    made and a token is stored. *)
Theorem reconnect_backoff (attempts : nat) :
  1000 ≤ reconnectDelay attempts ≤ 30000 ∧
  reconnectDelay attempts ≤ reconnectDelay (S attempts) ∧
  ((attempts < 4)%nat → reconnectDelay (S attempts) = 2 * reconnectDelay attempts) ∧
  ((5 ≤ attempts)%nat → reconnectDelay attempts = 30000) ∧
  (∀ hasToken,
     onclose attempts hasToken
     = if bool_decide ((attempts < 10)%nat ∧ hasToken = true)
       then Some (reconnectDelay attempts) else None).
Proof.
  unfold reconnectDelay.
  assert (Hpos : 1 ≤ 2 ^ Z.of_nat attempts)
    by (change 1 with (2 ^ 0); apply Z.pow_le_mono_r; lia).
  assert (Hstep : 2 ^ Z.of_nat (S attempts) = 2 * 2 ^ Z.of_nat attempts)
    by (rewrite Nat2Z.inj_succ, Z.pow_succ_r; lia).
  split; [lia|]. split; [lia|]. split; [|split].
  - intros Hlt. rewrite Hstep.
    assert (2 ^ Z.of_nat attempts ≤ 2 ^ 3) by (apply Z.pow_le_mono_r; lia).
    change (2 ^ 3) with 8 in *. lia.
  - intros Hge. pose proof (pow2_ge_32 attempts Hge). lia.
  - intros hasToken. unfold onclose, maxReconnectAttempts.
    destruct (Nat.ltb_spec attempts 10), hasToken; simpl;
      case_bool_decide as Hd; try done; try (destruct Hd; lia || done).
Qed.

Example reconnect_delays :
  reconnectDelay <$> seq 0 10
  = [1000; 2000; 4000; 8000; 16000; 30000; 30000; 30000; 30000; 30000].
Proof. reflexivity. Qed.

End TransportFacts.

(** ** The bearer header, client to server *)

Module ServerAuthFacts.
Import Text ServerAuth.

Local Open Scope list_scope.

Lemma splitOn_has_sep sep s :
  hasChar sep s = true → ∃ p1 p2 ps, splitOn sep s = p1 :: p2 :: ps.
Proof.
  induction s as [|a s IH]; [done|]. simpl.
  case_bool_decide as Ha; simpl.
  - intros _. destruct (splitOn sep s) as [|q qs] eqn:E.
    + by destruct s; simpl in E; repeat case_match.
    + eauto.
  - intros Hs. destruct (IH Hs) as (p1 & p2 & ps & ->). eauto.
Qed.

Lemma visible_no_space token : visible token = true → hasChar space token = false.
Proof.
  induction token as [|a token IH]; [done|]. simpl.
  intros [Ha Ht]%andb_true_iff. rewrite (IH Ht), orb_false_r.
  apply bool_decide_eq_false_2. intros ->. done.
Qed.

(** The header the request interceptor builds from a non-empty token of
    visible characters is a plain value, and its pieces are the scheme and
    the token. *)
Lemma bearer_plain token :
  token ≠ EmptyString → visible token = true →
  splitOn space (ApiClient.bearer token) = ["Bearer"%string; token] ∧
  plainValue (ApiClient.bearer token) = true.
Proof.
  intros Hne Hv.
  assert (Hs : splitOn space (ApiClient.bearer token) = ["Bearer"%string; token]).
  { unfold ApiClient.bearer.
    change ("Bearer " +:+ token)%string with ("Bearer" +:+ String space token)%string.
    rewrite FrameFacts.splitOn_app by done.
    by rewrite (FrameFacts.splitOn_no_sep _ _ (visible_no_space _ Hv)). }
  split; [done|]. unfold plainValue. rewrite Hs. simpl.
  by rewrite Hv, bool_decide_eq_false_2.
Qed.

Section Bearer.

Variable ToLower : string → string.
Hypothesis ToLower_Bearer : ToLower "Bearer" = "bearer"%string.

(** What a header value set by the client has become when the handler reads
    it with [r.Header.Get]: the browser and Go's header parser strip white
    space around a value.  A plain value arrives as it was set. *)
Variable transit : string → string.
Hypothesis transit_plain : ∀ v, plainValue v = true → transit v = v.

Lemma getAuthToken_bearer_aux token :
  token ≠ EmptyString → visible token = true →
  getAuthToken ToLower (transit (ApiClient.bearer token)) = token.
Proof.
  intros Hne Hv. destruct (bearer_plain token Hne Hv) as [Hs Hp].
  rewrite (transit_plain _ Hp). unfold getAuthToken. rewrite Hs.
  rewrite bool_decide_eq_false_2 by done.
  by rewrite bool_decide_eq_true_2.
Qed.

(** X17.  The server reads back the token the client sends.  While a
    non-empty token of visible ASCII characters is stored (a JWT is one),
    the request interceptor sets the Authorization header to a value that
    the transport delivers unchanged, and [getAuthToken] applied to the
    delivered header returns the stored token. *)
Theorem stored_token_reaches_server (s : ApiClient.State) (cfg : ApiClient.Config)
    (token : string) :
  ApiClient.getTruthy "token" s = Some token →
  visible token = true →
  getAuthToken ToLower ∘ transit
    <$> ApiClient.authorization (ApiClient.requestInterceptor s cfg)
  = Some token.
Proof.
  intros Ht Hv. unfold ApiClient.requestInterceptor. rewrite Ht. simpl.
  f_equal. apply getAuthToken_bearer_aux; [|done].
  unfold ApiClient.getTruthy in Ht. destruct (_ !! _); [|done].
  case_bool_decide; [done|]. congruence.
Qed.

End Bearer.

Lemma stored_token_reaches_server_witness :
  Samples2.lower "Bearer" = "bearer"%string ∧
  ApiClient.getTruthy "token" Samples.signedIn = Some "t0"%string ∧
  visible "t0" = true ∧
  getAuthToken Samples2.lower
    <$> ApiClient.authorization
          (ApiClient.requestInterceptor Samples.signedIn
             (ApiClient.mkConfig 1 (Some "/api/tasks"%string) false None))
  = Some "t0"%string.
Proof.
  assert (Hl : Samples2.lower "Bearer" = "bearer"%string) by reflexivity.
  assert (Ht : ApiClient.getTruthy "token" Samples.signedIn = Some "t0"%string)
    by reflexivity.
  assert (Hv : visible "t0" = true) by reflexivity.
  split; [exact Hl|]. split; [exact Ht|]. split; [exact Hv|].
  exact (stored_token_reaches_server Samples2.lower Hl (λ v, v) (λ v _, eq_refl)
           Samples.signedIn
           (ApiClient.mkConfig 1 (Some "/api/tasks"%string) false None) "t0" Ht Hv).
Defined.

End ServerAuthFacts.

(** ** The task screen *)

Module TaskMasterFacts.
Import TaskMaster.

Local Open Scope list_scope.

Lemma moved_Permutation {A} (l : list A) i j x :
  l !! i = Some x → take j (delete i l) ++ x :: drop j (delete i l) ≡ₚ l.
Proof.
  intros Hi. rewrite <- Permutation_middle, take_drop.
  symmetry. by apply delete_Permutation.
Qed.

Lemma handleReorder_Some filter cached oldIndex newIndex ids :
  handleReorder filter cached oldIndex newIndex = Some ids →
  filter = "all"%string ∧ ids ≡ₚ task_id <$> default [] cached.
Proof.
  unfold handleReorder. case_bool_decide as Hf; [done|].
  destruct (default [] cached !! actualStart oldIndex (length (default [] cached)))
    as [moved|] eqn:Hm; [|done].
  intros [= <-]. split.
  - destruct (decide (filter = "all"%string)); [done|]. by destruct Hf.
  - by rewrite (moved_Permutation _ _ _ _ Hm).
Qed.

Lemma handleReorder_in_range ts oldIndex newIndex :
  0 ≤ oldIndex < Z.of_nat (length ts) →
  is_Some (handleReorder "all" (Some ts) oldIndex newIndex).
Proof.
  intros Hr. unfold handleReorder. rewrite bool_decide_eq_false_2 by (by intros ?).
  simpl. unfold actualStart at 1.
  destruct (Z.ltb_spec oldIndex 0); [lia|].
  destruct (lookup_lt_is_Some_2 ts (Z.to_nat (Z.min oldIndex (Z.of_nat (length ts)))))
    as [moved ->]; [lia|]. by eexists.
Qed.

(** X18.  Dragging a task, with the filter on ['all'] and the dragged
    position inside the list, hands the reorder mutation a rearrangement of
    the cached ids; when the cached ids are pairwise distinct, the optimistic
    reorder then shows the tasks in exactly that order, numbered 0, 1, 2, ...
    in [sortOrder], with no task lost. *)
Theorem drag_reorders_cache (c : QueryCache) (ts : list Task) (oldIndex newIndex : Z) :
  tasks c = Some ts →
  NoDup (task_id <$> ts) →
  0 ≤ oldIndex < Z.of_nat (length ts) →
  ∃ ids ts',
    handleReorder "all" (tasks c) oldIndex newIndex = Some ids ∧
    ids ≡ₚ task_id <$> ts ∧
    tasks (UseTasks.reorder_onMutate ids c).1 = Some ts' ∧
    task_id <$> ts' = ids ∧
    task_sortOrder <$> ts' = Z.of_nat <$> seq 0 (length ts).
Proof.
  intros Hc Hnd Hr. rewrite Hc.
  destruct (handleReorder_in_range ts oldIndex newIndex Hr) as [ids Hids].
  destruct (handleReorder_Some _ _ _ _ _ Hids) as [_ Hperm]. simpl in Hperm.
  exists ids, (Reconciler.reorder ts ids).
  split; [exact Hids|]. split; [exact Hperm|].
  split; [unfold UseTasks.reorder_onMutate; by rewrite Hc|].
  assert (Hsub : ∀ i, i ∈ ids → i ∈ task_id <$> ts) by (intros i; by rewrite Hperm).
  assert (Hmiss : Reconciler.missingTasks ts ids = []).
  { apply ReconcilerFacts.filter_none. intros t Ht Hn. apply Hn.
    rewrite Hperm. by apply list_elem_of_fmap_2. }
  unfold Reconciler.reorder. rewrite Hmiss, app_nil_r.
  split.
  - rewrite EnvelopeInvariants.reorderedTasks_ids.
    by apply ReconcilerFacts.filter_all.
  - pose proof (ReconcilerFacts.reorderedTasks_named ts ids Hsub) as Hnamed.
    assert (Hlen : length ids = length ts)
      by (apply Permutation_length in Hperm; by rewrite length_fmap in Hperm).
    apply list_eq. intros k. rewrite !list_lookup_fmap, Hnamed.
    destruct (ids !! k) as [i|] eqn:Hk; simpl.
    + assert (Hi : i ∈ task_id <$> ts) by (apply Hsub, list_elem_of_lookup; eauto).
      apply EnvelopeInvariants.taskMap_lookup_cached in Hi as [t ->]. simpl.
      apply lookup_lt_Some in Hk. rewrite lookup_seq_lt by lia. done.
    + apply lookup_ge_None in Hk. rewrite lookup_seq_ge by lia. done.
Qed.

Lemma drag_reorders_cache_witness :
  tasks Samples.cache = Some Samples.threeTasks ∧
  NoDup (task_id <$> Samples.threeTasks) ∧
  ∃ ids ts',
    handleReorder "all" (tasks Samples.cache) 2 0 = Some ids ∧
    ids ≡ₚ task_id <$> Samples.threeTasks ∧
    tasks (UseTasks.reorder_onMutate ids Samples.cache).1 = Some ts' ∧
    task_id <$> ts' = ids ∧
    task_sortOrder <$> ts' = Z.of_nat <$> seq 0 (length Samples.threeTasks).
Proof.
  assert (H : NoDup (task_id <$> Samples.threeTasks))
    by (apply (bool_decide_unpack _); by vm_compute).
  split; [reflexivity|]. split; [exact H|].
  apply (drag_reorders_cache Samples.cache Samples.threeTasks 2 0 eq_refl H).
  simpl. lia.
Defined.

Example drag_last_to_front :
  handleReorder "all" (Some Samples.threeTasks) 2 0 = Some [3; 1; 2] ∧
  handleReorder "active" (Some Samples.threeTasks) 2 0 = None ∧
  handleReorder "all" (Some Samples.threeTasks) 3 0 = None ∧
  handleReorder "all" (Some Samples.threeTasks) (-1) 0 = Some [3; 1; 2].
Proof. repeat split; reflexivity. Qed.

Lemma length_filter_split {A} (P : A → bool) (l : list A) :
  (length (filter (λ x, P x = false) l) + length (filter (λ x, P x = true) l))%nat
  = length l.
Proof.
  induction l as [|x l IH]; [done|].
  rewrite !filter_cons. destruct (P x) eqn:E; repeat case_decide; try done; simpl; lia.
Qed.

(** X19.  The sidebar counts add up: for every cache, absent or present,
    the active and the completed tasks together are all the tasks, and the
    important ones and the tasks of any one list are at most all. *)
Theorem counts_add_up (cached : option (list Task)) :
  let n := getCounts cached in
  (count_active n + count_completed n = count_all n)%nat ∧
  (count_important n ≤ count_all n)%nat ∧
  (∀ listId, getListCount cached listId ≤ count_all n)%nat.
Proof.
  cbv zeta. unfold getCounts, getListCount. cbn [count_active count_completed count_all count_important].
  split; [apply (length_filter_split task_completed)|].
  split; [apply length_filter|]. intros listId. apply length_filter.
Qed.

End TaskMasterFacts.

(** ** The refresh interceptor: what it keeps and what it never does *)

Module ApiClientSafety.
Import ApiClient ApiClientFacts ApiStates.

Local Open Scope string_scope.
Local Open Scope list_scope.

Lemma step_settled s e : settled s → settled (step s e).
Proof.
  intros Hs. destruct e as [[st [cfg|]] | a r | ]; cbn [step].
  - unfold responseError. cbn [config status].
    case_bool_decide; [exact Hs|].
    destruct (_ || _).
    { unfold settled, idle. cbn.
      destruct (handleAuthFailure_frame s) as (-> & -> & ->). exact Hs. }
    destruct (getTruthy "refreshToken" s).
    2:{ unfold settled, idle. cbn.
        destruct (handleAuthFailure_frame s) as (-> & -> & ->). exact Hs. }
    destruct Hs as [(Hf & Ha & Hq)|[Ht Ha]].
    + rewrite Hf. right. cbn. rewrite Ha. eauto.
    + rewrite Ht. right. cbn. done.
  - exact Hs.
  - unfold refreshResolved. destruct (awaiting s) as [|o rest] eqn:Ha; [exact Hs|].
    left. unfold idle. cbn. split; [done|]. unfold processQueue. cbn.
    destruct Hs as [(_ & H & _)|[_ [x H]]]; rewrite Ha in H; [done|].
    injection H as _ ->. rewrite foldl_api. done.
  - unfold refreshRejected. destruct (awaiting s) as [|o rest] eqn:Ha; [exact Hs|].
    left. unfold idle. cbn. split; [done|].
    destruct (handleAuthFailure_frame (processQueue true (setAwaiting rest s)))
      as (_ & -> & ->).
    unfold processQueue. cbn.
    destruct Hs as [(_ & H & _)|[_ [x H]]]; rewrite Ha in H; [done|].
    injection H as _ ->. rewrite foldl_reject. done.
Qed.

Lemma run_settled s es : settled s → settled (run s es).
Proof.
  revert s. induction es as [|e es IH]; intros s Hs; [done|].
  apply IH. by apply step_settled.
Qed.

(** X20.  No blocked caller is left behind.  In every state the loaded
    module can reach, through any sequence of failed responses and refresh
    outcomes, either a refresh is under way with exactly one invocation
    suspended at it, or no refresh is under way and the queue of blocked
    requests is empty. *)
Theorem queue_empty_between_refreshes (ls : gmap string string) (login : bool)
    (es : list Event) :
  let s := run (init ls login) es in
  (isRefreshing s = false ∧ awaiting s = [] ∧ failedQueue s = []) ∨
  (isRefreshing s = true ∧ ∃ cfg, awaiting s = [cfg]).
Proof.
  apply (run_settled (init ls login) es). left. done.
Qed.

(** *** Sign-out *)

Lemma unauthorized_noRefresh s cfg :
  noRefreshFor s cfg →
  step s (unauthorized cfg) = emit (Rejected (call cfg)) (handleAuthFailure s).
Proof.
  intros Hn. cbn. unfold responseError. cbn [config status].
  rewrite bool_decide_eq_false_2 by (intros H; by apply H).
  destruct (retry_ cfg || from_option (includes "/api/auth/refresh") false (url cfg))
    eqn:Hor; [done|].
  apply orb_false_elim in Hor as [Hr Hu].
  destruct Hn as [Hn|[Hn|Hn]]; [congruence|congruence|]. by rewrite Hn.
Qed.

Lemma countRefresh_reload (b : bool) :
  countRefresh (if b then [Reload] else []) = 0%nat.
Proof. by destruct b. Qed.

Lemma emit_signout_count s c :
  refreshCalls (emit (Rejected c) (handleAuthFailure s)) = refreshCalls s.
Proof.
  unfold refreshCalls. cbn [emit effects]. rewrite handleAuthFailure_effects.
  rewrite !countRefresh_app, countRefresh_reload.
  rewrite (countRefresh_none [_]); [lia|]. by intros e ->%list_elem_of_singleton.
Qed.

(** X21.  An unauthorized response to a request that is marked as a retry,
    or that targets the refresh endpoint, or that arrives while no refresh
    token is stored, signs the client out: no refresh call is issued, the
    request is rejected, nothing is queued, and the stored token, refresh
    token and offline cache are removed. *)
Theorem unauthorized_signs_out (s : State) (cfg : Config) :
  noRefreshFor s cfg →
  let s' := step s (unauthorized cfg) in
  refreshCalls s' = refreshCalls s ∧
  Rejected (call cfg) ∈ effects s' ∧
  failedQueue s' = failedQueue s ∧
  localStorage s' !! "token" = None ∧
  localStorage s' !! "refreshToken" = None ∧
  localStorage s' !! "REACT_QUERY_OFFLINE_CACHE" = None.
Proof.
  intros Hn. cbv zeta. rewrite (unauthorized_noRefresh s cfg Hn).
  destruct (handleAuthFailure_clears s) as [H1 H2].
  destruct (handleAuthFailure_frame s) as (_ & _ & Hq).
  split; [|split; [|split; [|split; [|split]]]]; cbn [emit effects failedQueue localStorage];
    try done.
  - apply emit_signout_count.
  - apply elem_of_app. right. by left.
  - rewrite handleAuthFailure_storage. apply lookup_delete_eq.
Qed.

Lemma unauthorized_signs_out_witness :
  let cfg := mkConfig 1 (Some "/api/tasks") true (Some "Bearer t1") in
  noRefreshFor Samples.signedIn cfg ∧
  let s' := step Samples.signedIn (unauthorized cfg) in
  refreshCalls s' = refreshCalls Samples.signedIn ∧
  Rejected (call cfg) ∈ effects s' ∧
  failedQueue s' = failedQueue Samples.signedIn ∧
  localStorage s' !! "token" = None ∧
  localStorage s' !! "refreshToken" = None ∧
  localStorage s' !! "REACT_QUERY_OFFLINE_CACHE" = None.
Proof.
  cbv zeta.
  assert (H : noRefreshFor Samples.signedIn
                (mkConfig 1 (Some "/api/tasks") true (Some "Bearer t1")))
    by (by left).
  split; [exact H|].
  exact (unauthorized_signs_out Samples.signedIn
           (mkConfig 1 (Some "/api/tasks") true (Some "Bearer t1")) H).
Defined.

Lemma getTruthy_after_signout s : getTruthy "token" (handleAuthFailure s) = None.
Proof.
  unfold getTruthy. by rewrite (proj1 (handleAuthFailure_clears s)).
Qed.

(** X22.  Sign-out reloads the page at most once and is idempotent: it
    reloads only when a token was stored and the page is not the login page,
    it leaves every other stored key alone, and a second sign-out changes
    nothing at all. *)
Theorem handleAuthFailure_once (s : State) :
  handleAuthFailure (handleAuthFailure s) = handleAuthFailure s ∧
  effects (handleAuthFailure s)
  = effects s ++ (if bool_decide (is_Some (getTruthy "token" s)) && negb (onLoginPage s)
                  then [Reload] else []) ∧
  (∀ k, k ≠ "token" → k ≠ "refreshToken" → k ≠ "REACT_QUERY_OFFLINE_CACHE" →
        localStorage (handleAuthFailure s) !! k = localStorage s !! k).
Proof.
  split; [|split].
  - pose proof (getTruthy_after_signout s) as Hg.
    remember (handleAuthFailure s) as s1 eqn:Hs1.
    unfold handleAuthFailure. rewrite Hg.
    rewrite bool_decide_eq_false_2 by (by intros [? ?]). cbn [andb].
    assert (Hst : delete "REACT_QUERY_OFFLINE_CACHE"
                    (delete "refreshToken" (delete "token" (localStorage s1)))
                  = localStorage s1).
    { rewrite Hs1, handleAuthFailure_storage.
      set (m := delete "REACT_QUERY_OFFLINE_CACHE"
                  (delete "refreshToken" (delete "token" (localStorage s)))).
      rewrite (delete_id m "token").
      2:{ unfold m. rewrite lookup_delete_ne, lookup_delete_ne by done.
          apply lookup_delete_eq. }
      rewrite (delete_id m "refreshToken").
      2:{ unfold m. rewrite lookup_delete_ne by done. apply lookup_delete_eq. }
      apply delete_id. unfold m. apply lookup_delete_eq. }
    unfold setStorage. rewrite Hst. by destruct s1.
  - apply handleAuthFailure_effects.
  - intros k H1 H2 H3. rewrite handleAuthFailure_storage.
    by rewrite !lookup_delete_ne.
Qed.

(** *** When a refresh call is issued *)

Lemma countRefresh_requests (reqs : list Config) (f : Config → Config) :
  countRefresh (Request ∘ f <$> reqs) = 0%nat.
Proof.
  apply countRefresh_none. by intros e (x & -> & _)%list_elem_of_fmap.
Qed.

Lemma refreshResolved_count tok nr s :
  refreshCalls (refreshResolved tok nr s) = refreshCalls s.
Proof.
  unfold refreshResolved. destruct (awaiting s) as [|o rest]; [done|]. cbv zeta.
  unfold processQueue. rewrite foldl_api. unfold refreshCalls, api, emit.
  cbn [effects setRefreshing setQueue setStorage setAwaiting failedQueue].
  rewrite !countRefresh_app, countRefresh_requests.
  rewrite (countRefresh_none [_]); [lia|]. by intros e ->%list_elem_of_singleton.
Qed.

Lemma refreshRejected_count s : refreshCalls (refreshRejected s) = refreshCalls s.
Proof.
  destruct (awaiting s) as [|o rest] eqn:Ha; [by unfold refreshRejected; rewrite Ha|].
  rewrite (refreshRejected_state s o rest Ha). unfold refreshCalls. cbn [effects].
  rewrite !countRefresh_app, countRefresh_reload.
  rewrite (countRefresh_none (_ <$> _)), (countRefresh_none [_]); [lia| |].
  - by intros e ->%list_elem_of_singleton.
  - by intros e (x & -> & _)%list_elem_of_fmap.
Qed.

(** X23.  A refresh call has one cause only.  Every event either leaves the
    number of refresh calls as it was, or is an unauthorized response to a
    request that is not marked as a retry and does not target the refresh
    endpoint, arriving while a refresh token is stored and no refresh is
    under way; then exactly one call is issued, carrying that token. *)
Theorem refresh_call_has_one_cause (s : State) (e : Event) :
  refreshCalls (step s e) = refreshCalls s ∨
  ∃ cfg rt, e = unauthorized cfg ∧ fresh cfg ∧
            getTruthy "refreshToken" s = Some rt ∧ isRefreshing s = false ∧
            effects (step s e) = effects s ++ [RefreshCall rt].
Proof.
  destruct e as [[st [cfg|]] | a r | ]; cbn [step].
  - unfold responseError. cbn [config status].
    case_bool_decide as Hst.
    { left. unfold refreshCalls. cbn [emit effects].
      rewrite countRefresh_app, (countRefresh_none [_]); [lia|].
      by intros e ->%list_elem_of_singleton. }
    destruct (retry_ cfg || from_option (includes "/api/auth/refresh") false (url cfg))
      eqn:Hor.
    { left. apply emit_signout_count. }
    apply orb_false_elim in Hor as [Hr Hu].
    destruct (getTruthy "refreshToken" s) as [rt|] eqn:Ht.
    2:{ left. apply emit_signout_count. }
    destruct (isRefreshing s) eqn:Hi; [by left|].
    right. exists cfg, rt. split; [|done].
    unfold unauthorized. do 2 f_equal.
    destruct (decide (st = Some 401)) as [->|Hne]; [done|]. by destruct Hst.
  - by left.
  - left. apply refreshResolved_count.
  - left. apply refreshRejected_count.
Qed.

End ApiClientSafety.

(** ** Redelivery *)

Module Redelivery.
Import Reconciler.

Local Open Scope list_scope.

Lemma fmap_twice {A} (f : A → A) (l : list A) :
  (∀ x, f (f x) = f x) → f <$> (f <$> l) = f <$> l.
Proof.
  intros Hf. rewrite <- list_fmap_compose. apply list_fmap_ext. intros i x _. apply Hf.
Qed.

Lemma some_subtask_id_snoc id ss s :
  subtask_id s = id → some_subtask_id id (ss ++ [s]) = true.
Proof.
  intros Hs. unfold some_subtask_id. rewrite existsb_app. simpl.
  rewrite (bool_decide_eq_true_2 _ Hs). by rewrite orb_true_r.
Qed.

Lemma add_subtask_twice n task :
  add_subtask n (add_subtask n task) = add_subtask n task.
Proof.
  unfold add_subtask at 2.
  case_bool_decide as Hid; [|unfold add_subtask; by rewrite bool_decide_eq_false_2].
  destruct (negb _) eqn:Hex.
  - unfold add_subtask. cbn [task_id with_subtasks task_subtasks from_option].
    rewrite bool_decide_eq_true_2 by done.
    rewrite some_subtask_id_snoc by done. by rewrite Hex.
  - unfold add_subtask. rewrite bool_decide_eq_true_2 by done. by rewrite Hex.
Qed.

(** X24.  Every envelope is idempotent: delivering an envelope a second
    time, right after the first, leaves the cache as the first delivery
    left it, for every kind of envelope and every cache. *)
Theorem envelope_redelivery_changes_nothing (c : QueryCache)
    (event : WebSocketEvent) :
  handleWebSocketEvent (handleWebSocketEvent c event) event
  = handleWebSocketEvent c event.
Proof.
  destruct (tasks c) as [ts|] eqn:Hc.
  2:{ assert (H1 : handleWebSocketEvent c event = c)
        by (unfold handleWebSocketEvent; by rewrite Hc).
      by rewrite !H1. }
  destruct event as [newTask|updatedTask|id|taskIds|newSubtask|updatedSubtask|id
                     |newList|updatedList|id|type].
  - destruct (some_task_id (task_id newTask) ts) eqn:E.
    + assert (H1 : handleWebSocketEvent c (task_created newTask) = c)
        by (unfold handleWebSocketEvent; by rewrite Hc, E).
      by rewrite !H1.
    + assert (H1 : handleWebSocketEvent c (task_created newTask)
                   = setTasks (ts ++ [newTask]) c)
        by (unfold handleWebSocketEvent; by rewrite Hc, E).
      rewrite H1. unfold handleWebSocketEvent. cbn [tasks setTasks].
      assert (Hin : some_task_id (task_id newTask) (ts ++ [newTask]) = true).
      { apply UseTasksFacts.some_task_id_true. exists newTask. split; [|done].
        apply elem_of_app. right. by left. }
      by rewrite Hin.
  - set (f := λ task, if bool_decide (task_id task = task_id updatedTask)
                      then updatedTask else task).
    assert (H1 : handleWebSocketEvent c (task_updated updatedTask)
                 = setTasks (f <$> ts) c)
      by (unfold handleWebSocketEvent; by rewrite Hc).
    rewrite H1. unfold handleWebSocketEvent. cbn [tasks setTasks]. fold f.
    unfold setTasks. cbn [lists]. f_equal. f_equal.
    apply fmap_twice. intros t. unfold f.
    destruct (decide (task_id t = task_id updatedTask)) as [Hx|Hx].
    + rewrite (bool_decide_eq_true_2 _ Hx). by rewrite bool_decide_eq_true_2.
    + by rewrite !(bool_decide_eq_false_2 _ Hx).
  - apply UseTasksFacts.handle_task_deleted_twice.
  - apply UseTasksFacts.handle_reordered_twice.
  - assert (H1 : handleWebSocketEvent c (subtask_created newSubtask)
                 = setTasks (add_subtask newSubtask <$> ts) c)
      by (unfold handleWebSocketEvent; by rewrite Hc).
    rewrite H1. unfold handleWebSocketEvent. cbn [tasks setTasks].
    unfold setTasks. cbn [lists]. f_equal. f_equal.
    apply fmap_twice, add_subtask_twice.
  - set (h := λ s, if bool_decide (subtask_id s = subtask_id updatedSubtask)
                   then updatedSubtask else s).
    set (g := λ task, with_subtasks (fmap (M:=list) h <$> task_subtasks task) task).
    assert (H1 : handleWebSocketEvent c (subtask_updated updatedSubtask)
                 = setTasks (g <$> ts) c)
      by (unfold handleWebSocketEvent; by rewrite Hc).
    rewrite H1. unfold handleWebSocketEvent. cbn [tasks setTasks]. fold h. fold g.
    unfold setTasks. cbn [lists]. f_equal. f_equal.
    apply fmap_twice. intros t. unfold g.
    destruct t as [? ? ? ? ? ? ? ? ? [ss|] ? ?]; unfold with_subtasks; simpl; [|done].
    do 2 f_equal. apply fmap_twice. intros s. unfold h.
    destruct (decide (subtask_id s = subtask_id updatedSubtask)) as [Hx|Hx].
    + rewrite (bool_decide_eq_true_2 _ Hx). by rewrite bool_decide_eq_true_2.
    + by rewrite !(bool_decide_eq_false_2 _ Hx).
  - apply UseTasksFacts.handle_subtask_deleted_twice.
  - destruct (lists c) as [ls|] eqn:Hl.
    2:{ assert (H1 : handleWebSocketEvent c (list_created newList) = c)
          by (unfold handleWebSocketEvent; by rewrite Hc, Hl).
        by rewrite !H1. }
    destruct (some_list_id (list_id newList) ls) eqn:E.
    + assert (H1 : handleWebSocketEvent c (list_created newList) = c)
        by (unfold handleWebSocketEvent; by rewrite Hc, Hl, E).
      by rewrite !H1.
    + assert (H1 : handleWebSocketEvent c (list_created newList)
                   = setLists (ls ++ [newList]) c)
        by (unfold handleWebSocketEvent; by rewrite Hc, Hl, E).
      rewrite H1. unfold handleWebSocketEvent. cbn [tasks lists setLists]. rewrite Hc.
      assert (Hin : some_list_id (list_id newList) (ls ++ [newList]) = true).
      { apply UseListsFacts.some_list_id_true. exists newList. split; [|done].
        apply elem_of_app. right. by left. }
      by rewrite Hin.
  - destruct (lists c) as [ls|] eqn:Hl.
    2:{ assert (H1 : handleWebSocketEvent c (list_updated updatedList) = c)
          by (unfold handleWebSocketEvent; by rewrite Hc, Hl).
        by rewrite !H1. }
    set (f := λ l, if bool_decide (list_id l = list_id updatedList)
                   then updatedList else l).
    assert (H1 : handleWebSocketEvent c (list_updated updatedList)
                 = setLists (f <$> ls) c)
      by (unfold handleWebSocketEvent; by rewrite Hc, Hl).
    rewrite H1. unfold handleWebSocketEvent. cbn [tasks lists setLists]. rewrite Hc.
    fold f. unfold setLists. cbn [tasks]. f_equal.
    f_equal. apply fmap_twice. intros l. unfold f.
    destruct (decide (list_id l = list_id updatedList)) as [Hx|Hx].
    + rewrite (bool_decide_eq_true_2 _ Hx). by rewrite bool_decide_eq_true_2.
    + by rewrite !(bool_decide_eq_false_2 _ Hx).
  - destruct (lists c) as [ls|] eqn:Hl.
    2:{ assert (H1 : handleWebSocketEvent c (list_deleted id) = c)
          by (unfold handleWebSocketEvent; by rewrite Hc, Hl).
        by rewrite !H1. }
    assert (H1 : handleWebSocketEvent c (list_deleted id)
                 = setLists (filter (λ l, list_id l ≠ id) ls) c)
      by (unfold handleWebSocketEvent; by rewrite Hc, Hl).
    rewrite H1. unfold handleWebSocketEvent. cbn [tasks lists setLists]. rewrite Hc.
    unfold setLists. cbn [tasks]. by rewrite UseTasksFacts.filter_twice.
  - assert (H1 : handleWebSocketEvent c (unknown_event type) = c)
      by (unfold handleWebSocketEvent; by rewrite Hc).
    by rewrite !H1.
Qed.

End Redelivery.

(** ** Optimistic list mutations, continued *)

Module UseListsMore.
Import UseLists.

Local Open Scope list_scope.

(** X25.  The failure handlers of list update and list deletion put back
    the cache that was there before the optimistic edit, lists and tasks
    alike, for every cache; the one of list creation does whenever the lists
    collection was present. *)
Theorem list_rollback_restores (c : QueryCache) :
  (∀ nowIso id title,
     let '(c1, previousLists) := update_onMutate nowIso id title c in
     update_onError previousLists c1 = c) ∧
  (∀ id, let '(c1, ctx) := delete_onMutate id c in delete_onError ctx c1 = c) ∧
  (∀ now nowIso title,
     is_Some (lists c) →
     let '(c1, ctx) := create_onMutate now nowIso title c in
     create_onError ctx c1 = c).
Proof.
  split; [|split].
  - intros nowIso id title. apply UseListsFacts.update_rollback.
  - intros id. apply UseListsFacts.delete_rollback.
  - intros now nowIso title [ls Hl].
    by apply (UseListsFacts.create_rollback_present now nowIso title c ls).
Qed.

Lemma remove_list_collections id c :
  lists (remove_list id c) = filter (λ l, list_id l ≠ id) <$> lists c ∧
  tasks (remove_list id c) = filter (λ t, task_listId t ≠ Some id) <$> tasks c.
Proof. by destruct c as [[ts|] [ls|]]. Qed.

Lemma remove_list_twice id c : remove_list id (remove_list id c) = remove_list id c.
Proof.
  destruct c as [[ts|] [ls|]]; unfold remove_list, setLists, setTasks; simpl;
    by rewrite ?UseTasksFacts.filter_twice.
Qed.

Lemma elem_of_filtered {A} (P : A → Prop) `{!∀ x, Decision (P x)}
    (o : option (list A)) (x : A) :
  x ∈ default [] (filter P <$> o) ↔ x ∈ default [] o ∧ P x.
Proof.
  destruct o as [l|]; simpl.
  - rewrite list_elem_of_filter. tauto.
  - split; [by intros ?%elem_of_nil | by intros [?%elem_of_nil _]].
Qed.

(** X26.  Deleting a list optimistically removes the list and every task
    that belongs to it and nothing else: afterwards no cached list has the
    id and no cached task refers to it, every other list and task is still
    cached, and the success handler, which removes them once more, changes
    nothing. *)
Theorem delete_list_cascades (c : QueryCache) (id : Z) :
  let c1 := (delete_onMutate id c).1 in
  (∀ l, l ∈ default [] (lists c1) ↔ l ∈ default [] (lists c) ∧ list_id l ≠ id) ∧
  (∀ t, t ∈ default [] (tasks c1) ↔ t ∈ default [] (tasks c) ∧ task_listId t ≠ Some id) ∧
  TaskMaster.getListCount (tasks c1) id = 0%nat ∧
  delete_onSuccess id c1 = c1.
Proof.
  cbv zeta. unfold delete_onMutate, delete_onSuccess. cbn [fst].
  destruct (remove_list_collections id c) as [Hl Ht]. rewrite Hl, Ht.
  split; [|split; [|split]].
  - intros l. apply (elem_of_filtered (λ l, list_id l ≠ id)).
  - intros t. apply (elem_of_filtered (λ t, task_listId t ≠ Some id)).
  - unfold TaskMaster.getListCount. destruct (tasks c) as [ts|]; simpl; [|done].
    rewrite ReconcilerFacts.filter_none; [done|].
    by intros t [? _]%list_elem_of_filter.
  - apply remove_list_twice.
Qed.

End UseListsMore.
